(** * LanguageAnalyser: chunked ingestion and counting analyses

    A shallow embedding of the Python sources [AnalyserTemplate.py],
    [Frequency.py], [PoSFrequency.py], [SpecificCollocate.py] and
    [GeneralCollocateAnalysis.py], followed by the properties of the
    specification that were checked against it.

    Conventions of the embedding:
    - a Python [str] is the list of its code points ([list N]);
    - a Python [int] is a [Z]; a [float] is the rational value of its
      double ([Py.true_divide]);
    - a [collections.Counter] is a finite map [gmap str Z]; a missing key
      reads as [0] ([counter_get]);
    - a raised exception is the [Raise] case of [result]. *)

From Stdlib Require Import ZArith NArith List String Ascii Lia Permutation.
From Stdlib.Strings Require Import Byte.
From Stdlib Require QArith.
From stdpp Require Import gmap list fin_maps.

Open Scope Z_scope.

(** ** Python values and built-ins *)

Definition str := list N.

(** Literal helper: the code points of an ASCII literal. *)
Definition u (s : string) : str := map N_of_ascii (list_ascii_of_string s).

Inductive exn :=
| ValueError
| KeyError
| ZeroDivisionError
| OverflowError
| FileNotFoundError.

Inductive result (A : Type) :=
| Ok (a : A)
| Raise (e : exn).
Arguments Ok {A} a.
Arguments Raise {A} e.

(** How a call without a result ends: it returns, an exception escapes, or
    it never comes back. *)
Inductive outcome :=
| Returns
| Raises (e : exn)
| Hangs.

Module Py.

(** [range(n)] *)
Definition range (n : Z) : list Z := map Z.of_nat (seq 0 (Z.to_nat n)).

(** Index normalisation of a slice bound: negative bounds count from the
    end, and every bound is clamped to [0 .. len]. *)
Definition clamp (k len : Z) : Z :=
  if k <? 0 then Z.max (k + len) 0 else Z.min k len.

(** [l[start:stop]] *)
Definition slice {A} (l : list A) (start stop : Z) : list A :=
  let len := Z.of_nat (length l) in
  let a := clamp start len in
  let b := clamp stop len in
  take (Z.to_nat (b - a)) (drop (Z.to_nat a) l).

(** [sep.join(l)] *)
Fixpoint join (sep : str) (l : list str) : str :=
  match l with
  | [] => []
  | [s] => s
  | s :: rest => s ++ sep ++ join sep rest
  end.

(** The characters [str.split()] and [str.isspace()] treat as white space. *)
Definition is_space (c : N) : bool :=
  ((9 <=? c) && (c <=? 13) || (28 <=? c) && (c <=? 32)
   || (c =? 133) || (c =? 160) || (c =? 5760)
   || (8192 <=? c) && (c <=? 8202)
   || (c =? 8232) || (c =? 8233) || (c =? 8239) || (c =? 8287)
   || (c =? 12288))%N.

(** [s.split()]: maximal runs of non-space characters. [cur] holds the
    run being read, reversed. *)
Fixpoint split_from (cur : str) (s : str) : list str :=
  match s with
  | [] => match cur with [] => [] | _ => [rev cur] end
  | c :: s' =>
      if is_space c
      then match cur with
           | [] => split_from [] s'
           | _ => rev cur :: split_from [] s'
           end
      else split_from (c :: cur) s'
  end.

Definition split (s : str) : list str := split_from [] s.

(** [s.rsplit('\n', maxsplit=1)]: [None] stands for the one-element list
    returned when [s] holds no line feed; otherwise the text before and
    after the last line feed. *)
Fixpoint rsplit_newline (s : str) : option (str * str) :=
  match s with
  | [] => None
  | c :: s' =>
      match rsplit_newline s' with
      | Some (a, b) => Some (c :: a, b)
      | None => if (c =? 10)%N then Some ([], s') else None
      end
  end.

(** Line boundaries of [str.splitlines()]. *)
Definition is_linebreak (c : N) : bool :=
  ((10 <=? c) && (c <=? 13) || (28 <=? c) && (c <=? 30)
   || (c =? 133) || (c =? 8232) || (c =? 8233))%N.

(** [s.splitlines()]: the lines without their terminators; a carriage
    return followed by a line feed is one terminator. *)
Fixpoint splitlines_from (cur : str) (s : str) : list str :=
  match s with
  | [] => match cur with [] => [] | _ => [rev cur] end
  | c :: s' =>
      if is_linebreak c
      then rev cur ::
           match s' with
           | d :: s'' =>
               if ((c =? 13) && (d =? 10))%N
               then splitlines_from [] s''
               else splitlines_from [] s'
           | [] => []
           end
      else splitlines_from (c :: cur) s'
  end.

Definition splitlines (s : str) : list str := splitlines_from [] s.

(** The integer nearest to [n / d], for a positive [d]; of two integers
    equally near, the even one. *)
Definition round_half_even (n d : Z) : Z :=
  let q := n / d in
  let r := n mod d in
  if (d <? 2 * r) || ((2 * r =? d) && Z.odd q) then q + 1 else q.

(** [floor(log2(n / d))], for positive [n] and [d]. *)
Definition quotient_log2 (n d : Z) : Z :=
  let l := Z.log2 n - Z.log2 d in
  let below := if 0 <=? l then n <? d * 2 ^ l else n * 2 ^ (- l) <? d in
  if below then l - 1 else l.

(** [a / b] on two ints ([int.__truediv__]): the double nearest to the exact
    quotient, ties to even, given by its value as a rational. A double has
    a significand of 53 bits and a last place of 2^-1074 at least, so the
    quotient is rounded to a multiple of [2 ^ e], with [e] the exponent of
    the quotient less 52, and -1074 when that is smaller. A zero divisor
    raises [ZeroDivisionError]; a rounded quotient that reaches 2^1024
    raises [OverflowError]. *)
Definition true_divide (a b : Z) : result QArith_base.Q :=
  if b =? 0 then Raise ZeroDivisionError
  else if a =? 0 then Ok (QArith_base.inject_Z 0)
  else
    let n := Z.abs a in
    let d := Z.abs b in
    let e := Z.max (quotient_log2 n d - 52) (-1074) in
    let x := if 0 <=? e
             then QArith_base.inject_Z (round_half_even n (d * 2 ^ e) * 2 ^ e)
             else QArith_base.Qmake (round_half_even (n * 2 ^ (- e)) d)
                    (Z.to_pos (2 ^ (- e))) in
    if QArith_base.Qle_bool (QArith_base.inject_Z (2 ^ 1024)) x
    then Raise OverflowError
    else Ok (if Z.sgn a * Z.sgn b <? 0 then QArith_base.Qopp x else x).

End Py.

(** ** collections.Counter *)

(** [c[k]]: a missing key reads as zero. *)
Definition counter_get (c : gmap str Z) (k : str) : Z := default 0 (c !! k).

(** [c[k] += 1] *)
Definition counter_incr (c : gmap str Z) (k : str) : gmap str Z :=
  <[k := counter_get c k + 1]> c.

(** [Counter._keep_positive]: drop the entries whose count is not positive. *)
Definition keep_positive (c : gmap str Z) : gmap str Z :=
  filter (λ kv, 0 < kv.2) c.

(** [self += other] ([Counter.__iadd__]): add every count of [other] into
    [self], then keep the positive entries. *)
Definition counter_iadd (self other : gmap str Z) : gmap str Z :=
  keep_positive
    (map_fold (λ elem count acc, <[elem := counter_get acc elem + count]> acc)
       self other).

(** [sum(count.values())] ([AnalyserTemplate.total_count]) *)
Definition total_count (count : gmap str Z) : Z :=
  map_fold (λ _ v acc, v + acc) 0 count.

(** Every stored count is positive. *)
Definition positive_counter (c : gmap str Z) : Prop :=
  ∀ k v, c !! k = Some v → 0 < v.

(** The count of [k] summed over a list of counters. *)
Definition count_sum (k : str) (l : list (gmap str Z)) : Z :=
  foldr (λ c s, counter_get c k + s) 0 l.

(** ** AnalyserTemplate.py *)

Module AnalyserTemplate.

(** *** Decoding *)

Definition in_range (lo hi x : N) : bool := ((lo <=? x) && (x <=? hi))%N.

(** A continuation byte and its payload. *)
Definition is_cont (x : N) : bool := in_range 128 191 x.
Definition payload (x : N) : N := (x - 128)%N.

(** [bytes.decode("UTF-8")] in strict mode: [None] stands for
    [UnicodeDecodeError] (an invalid or truncated sequence, an overlong
    form, a surrogate, or a code point above U+10FFFF). *)
Fixpoint decode (bs : list byte) : option str :=
  match bs with
  | [] => Some []
  | b0 :: r0 =>
      let x0 := Byte.to_N b0 in
      if (x0 <? 128)%N then cons x0 <$> decode r0
      else if in_range 194 223 x0 then
        match r0 with
        | b1 :: r1 =>
            let x1 := Byte.to_N b1 in
            if is_cont x1
            then cons ((x0 - 192) * 64 + payload x1)%N <$> decode r1
            else None
        | _ => None
        end
      else if in_range 224 239 x0 then
        match r0 with
        | b1 :: b2 :: r2 =>
            let x1 := Byte.to_N b1 in
            let x2 := Byte.to_N b2 in
            let lo := if (x0 =? 224)%N then 160%N else 128%N in
            let hi := if (x0 =? 237)%N then 159%N else 191%N in
            if in_range lo hi x1 && is_cont x2
            then cons (((x0 - 224) * 64 + payload x1) * 64 + payload x2)%N
                   <$> decode r2
            else None
        | _ => None
        end
      else if in_range 240 244 x0 then
        match r0 with
        | b1 :: b2 :: b3 :: r3 =>
            let x1 := Byte.to_N b1 in
            let x2 := Byte.to_N b2 in
            let x3 := Byte.to_N b3 in
            let lo := if (x0 =? 240)%N then 144%N else 128%N in
            let hi := if (x0 =? 244)%N then 143%N else 191%N in
            if in_range lo hi x1 && is_cont x2 && is_cont x3
            then cons ((((x0 - 240) * 64 + payload x1) * 64 + payload x2) * 64
                       + payload x3)%N
                   <$> decode r3
            else None
        | _ => None
        end
      else None
  end.

(** *** generate_chunk *)

(** [resource.read(n)] at offset [pos] of the open file: the bytes read and
    the new offset. A size of [-1] reads to the end of the file; a size
    below [-1] is refused with [ValueError] ([None]). *)
Definition read (file : list byte) (pos : nat) (n : Z) : option (list byte * nat) :=
  if n <? -1 then None
  else
    let rest := drop pos file in
    let data := if n <? 0 then rest else take (Z.to_nat n) rest in
    Some (data, (pos + length data)%nat).

(** How the generator stops: the loop condition fails (the carried overlap
    is what is left in [overlap]), an exception escapes, or the iteration
    budget of the model is used up. *)
Inductive gen_end :=
| Exhausted (overlap : str)
| Raised (e : exn)
| OutOfFuel.

(** One window of the [while] loop, once its bytes are read. *)
Inductive window_result :=
| Skipped                          (* decoding failed: the [except] branch *)
| Unpack_error                     (* [rsplit] gave a single element *)
| Yielded (chunk overlap : str).

Definition window_step (overlap : str) (data : list byte) : window_result :=
  match decode data with
  | None => Skipped
  | Some text =>
      let buffer := overlap ++ text in
      match Py.rsplit_newline buffer with
      | None => Unpack_error
      | Some (chunk, overlap') => Yielded chunk overlap'
      end
  end.

(** The [while p <= self.file_size] loop: the chunks yielded, in order,
    and how the generator stopped. *)
Fixpoint generate_loop (fuel : nat) (file : list byte) (file_size chunk_size : Z)
    (p : Z) (pos : nat) (overlap : str) : list str * gen_end :=
  match fuel with
  | O => ([], OutOfFuel)
  | S fuel' =>
      if p <=? file_size then
        let n := if file_size - p <? chunk_size then file_size - p else chunk_size in
        match read file pos n with
        | None =>
            generate_loop fuel' file file_size chunk_size (p + chunk_size) pos overlap
        | Some (data, pos') =>
            match window_step overlap data with
            | Skipped =>
                generate_loop fuel' file file_size chunk_size (p + chunk_size) pos' overlap
            | Unpack_error => ([], Raised ValueError)
            | Yielded chunk overlap' =>
                let '(chunks, e) :=
                  generate_loop fuel' file file_size chunk_size (p + chunk_size) pos'
                    overlap'
                in (chunk :: chunks, e)
            end
        end
      else ([], Exhausted overlap)
  end.

(** [generate_chunk(filename)], with [self.file_size] the size of that
    file as [pre_process_resource] sets it. *)
Definition generate_chunk (file : list byte) (chunk_size : Z) : list str * gen_end :=
  generate_loop (length file + 2) file (Z.of_nat (length file)) chunk_size 0 0%nat [].

(** *** The destination directory *)

(** The directory of the partitions: [None] when it does not exist,
    otherwise the content of each numbered partition file it holds. *)
Definition folder := option (gmap Z str).

(** File-system effects on that directory, in the order they happen. *)
Inductive fs_event :=
| Mkdir
| Rmtree
| Write_partition (slot : Z) (text : str).

Record world := World { dir : folder; trace : list fs_event }.

(** *** pre_process_line and pre_process_chunk *)

Section WithConfig.

(** [str.lower], and the tables and counts of [constants] and
    [config.json]. A translation table maps a code point to its
    replacement; [None] leaves the character as it is. *)
Variable lower : str → str.
Variable NORM_TABLE PUNC_TABLE : N → option str.
Variable lstrip rstrip : Z.

(** [s.translate(table)] *)
Definition translate (table : N → option str) (s : str) : str :=
  flat_map (λ c, default [c] (table c)) s.

(** [pre_process_line(line)] *)
Definition pre_process_line (line : str) : str :=
  let line := lower line in
  let line := translate NORM_TABLE line in
  let line := translate PUNC_TABLE line in
  let line := Py.split line in
  let line := Py.slice line lstrip (Z.of_nat (length line)) in
  let line := if rstrip =? 0 then line else Py.slice line 0 (- rstrip) in
  Py.join (u " ") line.

(** The text assembled by the first loop of [pre_process_chunk]. *)
Definition normalized_block (chunk : str) : str :=
  foldl (λ text line, text ++ pre_process_line line ++ [10%N])
        [] (Py.splitlines chunk).

(** The first index of [range(1000)] whose partition file is missing. *)
Definition first_free_slot (files : gmap Z str) : option Z :=
  List.find (λ i, bool_decide (files !! i = None)) (Py.range 1000).

(** [pre_process_chunk(chunk)] run in the state [w]. Opening a file inside
    a missing directory raises [FileNotFoundError]; when the scan finds no
    free slot the loop ends and the function returns. *)
Definition pre_process_chunk (w : world) (chunk : str) : result world :=
  let text := normalized_block chunk in
  match dir w with
  | None => Raise FileNotFoundError
  | Some files =>
      match first_free_slot files with
      | Some i =>
          Ok (World (Some (<[i := text]> files))
                (trace w ++ [Write_partition i text]))
      | None => Ok w
      end
  end.

(** *** pre_process_resource *)

(** [self.file_size / self.chunk_size > 500]: the quotient is a double, and
    the comparison of a double with an int is exact. *)
Definition too_many_partitions (file_size chunk_size : Z) : result bool :=
  match Py.true_divide file_size chunk_size with
  | Raise e => Raise e
  | Ok x => Ok (negb (QArith_base.Qle_bool x (QArith_base.inject_Z 500)))
  end.

(** The consumption of [pool.imap(self.pre_process_chunk, chunks)] with the
    calls of [pre_process_chunk] made in the order of the chunks, each one
    ending before the next one starts, as a pool of one worker process
    makes them. With more workers the calls overlap in time; what is proved
    over this definition does not depend on which call takes which slot. *)
Fixpoint write_chunks (w : world) (chunks : list str) : world * outcome :=
  match chunks with
  | [] => (w, Returns)
  | chunk :: rest =>
      match pre_process_chunk w chunk with
      | Raise e => (w, Raises e)
      | Ok w' => write_chunks w' rest
      end
  end.

(** The body of [for filename in files]: the division for
    [self.slice_size], the guard with its [rmtree] (which raises
    [FileNotFoundError] on a missing directory), then the pool loop. The
    chunks yielded before the generator stops are consumed first; then the
    way it stopped shows. The generator uses up its budget only for a chunk
    size below [-1], where the loop of the source never ends. *)
Definition pre_process_file (chunk_size : Z) (w : world) (file : list byte)
  : world * outcome :=
  let file_size := Z.of_nat (length file) in
  match Py.true_divide file_size 12 with
  | Raise e => (w, Raises e)
  | Ok _ =>
      match too_many_partitions file_size chunk_size with
      | Raise e => (w, Raises e)
      | Ok true =>
          match dir w with
          | None => (w, Raises FileNotFoundError)
          | Some _ => (World None (trace w ++ [Rmtree]), Raises ValueError)
          end
      | Ok false =>
          let '(chunks, e) := generate_chunk file chunk_size in
          match write_chunks w chunks with
          | (w', Returns) =>
              match e with
              | Exhausted _ => (w', Returns)
              | Raised err => (w', Raises err)
              | OutOfFuel => (w', Hangs)
              end
          | stopped => stopped
          end
      end
  end.

Fixpoint pre_process_files (chunk_size : Z) (w : world) (files : list (list byte))
  : world * outcome :=
  match files with
  | [] => (w, Returns)
  | file :: rest =>
      match pre_process_file chunk_size w file with
      | (w', Returns) => pre_process_files chunk_size w' rest
      | stopped => stopped
      end
  end.

(** [pre_process_resource()]: [files] are the raw files matched by the
    glob, [w] the state of the destination directory on entry. The final
    state and the way the call ends. *)
Definition pre_process_resource (chunk_size : Z) (w : world)
    (files : list (list byte)) : world * outcome :=
  match files with
  | [] => (w, Raises FileNotFoundError)
  | _ =>
      let w1 := match dir w with
                | None => World (Some ∅) (trace w ++ [Mkdir])
                | Some _ => w
                end in
      pre_process_files chunk_size w1 files
  end.

End WithConfig.

End AnalyserTemplate.

(** ** Frequency.py *)

Module Frequency.

(** [generate_groups(line, l)]: the phrases of [l] words, in the order
    they are yielded. *)
Definition generate_groups (line : list str) (l : Z) : list str :=
  map (λ i, Py.join (u " ") (Py.slice line i (i + l)))
      (Py.range (Z.of_nat (length line) - l)).

(** [reduce_count(cnt)]: the entries whose count exceeds the threshold. *)
Definition reduce_count (thresh : Z) (cnt : gmap str Z) : gmap str Z :=
  filter (λ kv, thresh < kv.2) cnt.

(** The loop of [process] over the lines of one partition file, before the
    reduction. *)
Definition count_lines (l : Z) (lines : list str) : gmap str Z :=
  foldl (λ count line, foldl counter_incr count (generate_groups (Py.split line) l))
        ∅ lines.

(** [process(file)] *)
Definition process (l thresh : Z) (lines : list str) : gmap str Z :=
  reduce_count thresh (count_lines l lines).

(** The merge loop of [execute]: [master_count += count] for every partial
    count, in the order the pool delivered them. *)
Definition merge_counts (counts : list (gmap str Z)) : gmap str Z :=
  foldl counter_iadd ∅ counts.

End Frequency.

(** ** SpecificCollocate.py *)

(** [enumerate(l)] *)
Definition enumerate {A} (l : list A) : list (Z * A) :=
  zip (Py.range (Z.of_nat (length l))) l.

(** [count[word][key] += 1] on a dict of Counters; the outer dict raises
    [KeyError] on a missing word. *)
Definition incr_in (count : gmap str (gmap str Z)) (word key : str)
  : result (gmap str (gmap str Z)) :=
  match count !! word with
  | Some c => Ok (<[word := counter_incr c key]> count)
  | None => Raise KeyError
  end.

(** [{word: Counter() for word in words}] *)
Definition empty_counts (words : list str) : gmap str (gmap str Z) :=
  list_to_map (map (λ w, (w, ∅)) words).

(** The merge loop shared by the collocate and PoS analyses:
    [for word in master_count: master_count[word] += count[word]]. *)
Definition merge_into (master count : gmap str (gmap str Z))
  : result (gmap str (gmap str Z)) :=
  map_fold (λ word c acc,
              match acc with
              | Raise e => Raise e
              | Ok m =>
                  match count !! word with
                  | Some cw => Ok (<[word := counter_iadd c cw]> m)
                  | None => Raise KeyError
                  end
              end)
           (Ok master) master.

(** [for count in counts: ...] over the partial results, from the empty
    master table. *)
Definition merge_all (keys : list str) (counts : list (gmap str (gmap str Z)))
  : result (gmap str (gmap str Z)) :=
  foldl (λ acc count,
           match acc with
           | Raise e => Raise e
           | Ok master => merge_into master count
           end)
        (Ok (empty_counts keys)) counts.

(** A per-partition table as [process] returns it: one counter of positive
    counts for every key of the master table. *)
Definition table_ok (keys : list str) (t : gmap str (gmap str Z)) : Prop :=
  ∀ w, w ∈ keys → ∃ c, t !! w = Some c ∧ positive_counter c.

(** In every counter of the table, no key counts more than ['TOTAL']. *)
Definition total_dominates (t : gmap str (gmap str Z)) : Prop :=
  ∀ w c, t !! w = Some c → ∀ k, counter_get c k ≤ counter_get c (u "TOTAL").

(** The table holds a counter for each word of interest, and ['TOTAL']
    dominates in each of them. *)
Definition collocate_invariant (words : list str) (t : gmap str (gmap str Z)) : Prop :=
  (∀ w, w ∈ words → is_Some (t !! w)) ∧ total_dominates t.

Module SpecificCollocate.

Definition TOTAL : str := u "TOTAL".

(** The body of the [try] block of [process_line]: [None] when the range
    check raises [IndexError], otherwise the phrase that is counted. *)
Definition window (line : list str) (i n : Z) : option str :=
  let neg := if n <? 0 then n else 1 in
  let pos := if 0 <? n then n + 1 else 0 in
  if i - neg <? 0 then None
  else if Z.of_nat (length line) - 1 <? i + pos then None
  else Some (Py.join (u " ") (Py.slice line (i + neg) (i + pos))).

(** One iteration of the loop over [enumerate(line)]. *)
Definition visit (line : list str) (words : list str) (n : Z)
    (count : gmap str (gmap str Z)) (iw : Z * str)
  : result (gmap str (gmap str Z)) :=
  let '(i, word) := iw in
  if bool_decide (word ∈ words) then
    match incr_in count word TOTAL with
    | Raise e => Raise e
    | Ok count1 =>
        match window line i n with
        | Some phrase => incr_in count1 word phrase
        | None => Ok count1
        end
    end
  else Ok count.

(** [process_line(count, line, words, n)] *)
Definition process_line (count : gmap str (gmap str Z)) (line : str)
    (words : list str) (n : Z) : result (gmap str (gmap str Z)) :=
  let line := Py.split line in
  foldl (λ acc iw,
           match acc with
           | Raise e => Raise e
           | Ok count => visit line words n count iw
           end)
        (Ok count) (enumerate line).

(** [process(file)] over the lines of one partition. *)
Definition process (words : list str) (n : Z) (lines : list str)
  : result (gmap str (gmap str Z)) :=
  foldl (λ acc line,
           match acc with
           | Raise e => Raise e
           | Ok count => process_line count line words n
           end)
        (Ok (empty_counts words)) lines.

End SpecificCollocate.

(** ** GeneralCollocateAnalysis.py *)

Module GeneralCollocateAnalysis.

(** The body of the [try] block, textually the one of the specific
    analysis. *)
Definition window (line : list str) (i n : Z) : option str :=
  let neg := if n <? 0 then n else 1 in
  let pos := if 0 <? n then n + 1 else 0 in
  if i - neg <? 0 then None
  else if Z.of_nat (length line) - 1 <? i + pos then None
  else Some (Py.join (u " ") (Py.slice line (i + neg) (i + pos))).

(** One iteration of the loop over [enumerate(line)]: the four offsets
    are tried in turn. *)
Definition visit (line : list str) (words : list str)
    (count : gmap str (gmap str Z)) (iw : Z * str)
  : result (gmap str (gmap str Z)) :=
  let '(i, word) := iw in
  if bool_decide (word ∈ words) then
    foldl (λ acc n,
             match acc with
             | Raise e => Raise e
             | Ok count =>
                 match window line i n with
                 | Some phrase => incr_in count word phrase
                 | None => Ok count
                 end
             end)
          (Ok count) [-2; -1; 1; 2]
  else Ok count.

(** [process_line(count, line, words)] *)
Definition process_line (count : gmap str (gmap str Z)) (line : str)
    (words : list str) : result (gmap str (gmap str Z)) :=
  let line := Py.split line in
  foldl (λ acc iw,
           match acc with
           | Raise e => Raise e
           | Ok count => visit line words count iw
           end)
        (Ok count) (enumerate line).

(** [process(file)] over the lines of one partition. *)
Definition process (words : list str) (lines : list str)
  : result (gmap str (gmap str Z)) :=
  foldl (λ acc line,
           match acc with
           | Raise e => Raise e
           | Ok count => process_line count line words
           end)
        (Ok (empty_counts words)) lines.

End GeneralCollocateAnalysis.

(** ** PoSFrequency.py *)

Module PoSFrequency.
Section WithTagger.

(** [nltk.pos_tag]: the external tagger, from a token list to the list of
    (token, tag) pairs. *)
Variable pos_tag : list str → list (str * str).

(** [constants.POS_TAGS]: the fixed tag vocabulary. *)
Variable POS_TAGS : list str.

(** [generate_groups(line)]: the pairs of consecutive tags. *)
Definition generate_groups (line : list str) : list (str * str) :=
  let line := pos_tag line in
  map (λ i, ((line !!! Z.to_nat i).2, (line !!! Z.to_nat (i + 1)).2))
      (Py.range (Z.of_nat (length line) - 1)).

(** [try: count[first][second] += 1 except KeyError: pass] *)
Definition record_pair (count : gmap str (gmap str Z)) (p : str * str)
  : gmap str (gmap str Z) :=
  match incr_in count p.1 p.2 with
  | Ok count' => count'
  | Raise _ => count
  end.

(** [process(file)] over the lines of one partition. *)
Definition process (lines : list str) : gmap str (gmap str Z) :=
  foldl (λ count line, foldl record_pair count (generate_groups (Py.split line)))
        (empty_counts POS_TAGS) lines.

(** The keys of the table are the tags of the vocabulary. *)
Definition vocabulary_rows (count : gmap str (gmap str Z)) : Prop :=
  ∀ tag, is_Some (count !! tag) ↔ tag ∈ POS_TAGS.

End WithTagger.
End PoSFrequency.


(** The exact quotient [a / b] is greater than [bound]. *)
Definition quotient_exceeds (a b bound : Z) : Prop :=
  QArith_base.Qlt (QArith_base.inject_Z bound)
    (QArith_base.Qdiv (QArith_base.inject_Z a) (QArith_base.inject_Z b)).

(** ** Vocabulary of the further properties *)

(** How often [x] occurs in [l]. *)
Definition occurrences {A} `{EqDecision A} (x : A) (l : list A) : Z :=
  Z.of_nat (length (filter (λ y, y = x) l)).

(** All the phrases that [Frequency.process] generates from the lines of a
    partition, in order. *)
Definition all_groups (l : Z) (lines : list str) : list str :=
  concat (map (λ line, Frequency.generate_groups (Py.split line) l) lines).

(** All the tag pairs that [PoSFrequency.process] meets over the lines of a
    partition, in order. *)
Definition all_tag_pairs (pos_tag : list str → list (str * str)) (lines : list str)
  : list (str * str) :=
  concat (map (λ line, PoSFrequency.generate_groups pos_tag (Py.split line)) lines).

(** A token: not empty, and without a white-space character. *)
Definition is_token (t : str) : Prop :=
  t ≠ [] ∧ Forall (λ c, Py.is_space c = false) t.

(** ** Sample inputs *)

Module Samples.

Definition nl : str := [10%N].

Definition count_a : gmap str Z := <[u "the" := 2]> (<[u "fox" := 1]> ∅).
Definition count_b : gmap str Z := <[u "the" := 1]> (<[u "dog" := 3]> ∅).
Definition count_c : gmap str Z := <[u "dog" := 1]> ∅.

Definition table_a : gmap str (gmap str Z) :=
  <[u "fox" := <[u "TOTAL" := 2]> (<[u "jumps" := 1]> ∅)]> ∅.
Definition table_b : gmap str (gmap str Z) :=
  <[u "fox" := <[u "TOTAL" := 1]> (<[u "jumps" := 1]> ∅)]> ∅.

(** Two partition files of normalized lines. *)
Definition part_one : list str := [u "the quick brown fox"; u "the quick dog"].
Definition part_two : list str := [u "the fox jumps"; u "the end"].

(** A per-partition table, or the empty table if the run raised. *)
Definition table_of (r : result (gmap str (gmap str Z))) : gmap str (gmap str Z) :=
  match r with
  | Ok t => t
  | Raise _ => ∅
  end.

Definition fox_one : gmap str (gmap str Z) :=
  table_of (SpecificCollocate.process [u "fox"] 1
              [u "the quick brown fox jumps high"; u "a fox"]).
Definition fox_two : gmap str (gmap str Z) :=
  table_of (SpecificCollocate.process [u "fox"] 1 [u "one fox jumps far"]).

(** A stand-in for the external tagger: a determiner, a noun, and a
    foreign-word tag for anything else. *)
Definition tagger (line : list str) : list (str * str) :=
  map (λ w, (w, if bool_decide (w = u "the") then u "DT"
                else if bool_decide (w = u "fox") then u "NN"
                else u "FW")) line.

(** A vocabulary that holds the first two of these tags. *)
Definition vocabulary : list str := [u "DT"; u "NN"].

(** Raw files, as bytes. *)
Definition raw (s : string) : list byte := list_byte_of_string s.

(** "ab\ncd\n": two lines, six bytes. *)
Definition two_lines : list byte := raw "ab" ++ [x0a] ++ raw "cd" ++ [x0a].

(** "abcd\n": one line of four characters. *)
Definition long_line : list byte := raw "abcd" ++ [x0a].

(** "a\nb": the last line has no terminator. *)
Definition open_end : list byte := raw "a" ++ [x0a] ++ raw "b".

(** A configuration that leaves lines as they are, up to white space. *)
Definition keep (c : N) : option str := None.

(** A destination directory in which all thousand slots are taken. *)
Definition full_folder : gmap Z str :=
  list_to_map (map (λ i, (i, u "x")) (Py.range 1000)).

(** A destination directory that holds the first partition only. *)
Definition one_partition : gmap Z str := <[0 := u "x"]> ∅.

(** Three empty lines, and a file of 1001 empty lines. *)
Definition three_newlines : list byte := [x0a; x0a; x0a].
Definition many_newlines : list byte := repeat x0a 1001.

End Samples.

(** * Properties *)

(** ** Counter arithmetic *)

Section CounterFacts.
Implicit Types (a b c : gmap str Z) (k : str).

Lemma counter_get_empty k : counter_get ∅ k = 0.
Proof. unfold counter_get. by rewrite lookup_empty. Qed.

Lemma counter_get_pos a k :
  positive_counter a → 0 ≤ counter_get a k.
Proof.
  intros Ha. unfold counter_get.
  destruct (a !! k) as [v|] eqn:E; simpl; [specialize (Ha _ _ E)|]; lia.
Qed.

(** The adding loop of [__iadd__], before the non-positive entries go. *)
Lemma lookup_iadd_loop a b k :
  map_fold (λ elem count acc, <[elem := counter_get acc elem + count]> acc) a b !! k
  = match b !! k with
    | Some v => Some (counter_get a k + v)
    | None => a !! k
    end.
Proof.
  revert k.
  apply (map_fold_weak_ind
           (λ r m, ∀ k, r !! k = match m !! k with
                                 | Some v => Some (counter_get a k + v)
                                 | None => a !! k
                                 end)).
  - intros k. by rewrite lookup_empty.
  - intros i x m r Hi IH k.
    destruct (decide (i = k)) as [->|Hne].
    + rewrite !lookup_insert_eq. unfold counter_get at 1.
      by rewrite IH, Hi.
    + by rewrite !lookup_insert_ne.
Qed.

Lemma lookup_counter_iadd a b k :
  counter_iadd a b !! k
  = match a !! k, b !! k with
    | None, None => None
    | _, _ =>
        let s := counter_get a k + counter_get b k in
        if bool_decide (0 < s) then Some s else None
    end.
Proof.
  unfold counter_iadd, keep_positive.
  rewrite map_lookup_filter, lookup_iadd_loop. unfold counter_get.
  destruct (a !! k) as [x|], (b !! k) as [y|]; simpl; try done;
    case_bool_decide; case_guard; simpl in *; try done; try lia;
    f_equal; lia.
Qed.

Lemma counter_get_iadd a b k :
  counter_get (counter_iadd a b) k
  = Z.max 0 (counter_get a k + counter_get b k).
Proof.
  unfold counter_get at 1. rewrite lookup_counter_iadd. unfold counter_get.
  destruct (a !! k), (b !! k); simpl; try case_bool_decide; simpl; lia.
Qed.

Lemma counter_iadd_positive a b : positive_counter (counter_iadd a b).
Proof.
  intros k v. rewrite lookup_counter_iadd.
  destruct (a !! k), (b !! k); simpl; try case_bool_decide; intros; simplify_eq; lia.
Qed.

Lemma positive_counter_empty : positive_counter ∅.
Proof. intros k v. by rewrite lookup_empty. Qed.

(** Two counters without non-positive entries agree when they read the
    same at every key. *)
Lemma positive_counter_eq a b :
  positive_counter a → positive_counter b →
  (∀ k, counter_get a k = counter_get b k) → a = b.
Proof.
  intros Ha Hb Hget. apply map_eq. intros k.
  specialize (Hget k). unfold counter_get in Hget.
  destruct (a !! k) as [x|] eqn:Ea, (b !! k) as [y|] eqn:Eb; simpl in *;
    try done.
  - by subst.
  - specialize (Ha _ _ Ea). lia.
  - specialize (Hb _ _ Eb). lia.
Qed.

Lemma counter_iadd_comm a b : counter_iadd a b = counter_iadd b a.
Proof.
  apply map_eq. intros k. rewrite !lookup_counter_iadd.
  destruct (a !! k), (b !! k); simpl; try done;
    repeat case_bool_decide; try done; try lia; f_equal; lia.
Qed.

Lemma counter_iadd_assoc a b c :
  positive_counter a → positive_counter b → positive_counter c →
  counter_iadd (counter_iadd a b) c = counter_iadd a (counter_iadd b c).
Proof.
  intros Ha Hb Hc.
  apply positive_counter_eq; try apply counter_iadd_positive.
  intros k. rewrite !counter_get_iadd.
  pose proof (counter_get_pos a k Ha). pose proof (counter_get_pos b k Hb).
  pose proof (counter_get_pos c k Hc). lia.
Qed.

Lemma counter_iadd_empty_l a : positive_counter a → counter_iadd ∅ a = a.
Proof.
  intros Ha. apply positive_counter_eq; [apply counter_iadd_positive|done|].
  intros k. rewrite counter_get_iadd, counter_get_empty.
  pose proof (counter_get_pos a k Ha). lia.
Qed.

Lemma counter_iadd_empty_r a : positive_counter a → counter_iadd a ∅ = a.
Proof. intros Ha. rewrite counter_iadd_comm. by apply counter_iadd_empty_l. Qed.

Lemma count_sum_perm k l l' : Permutation l l' → count_sum k l = count_sum k l'.
Proof. induction 1; simpl; lia. Qed.

Lemma count_sum_nonneg k l : Forall positive_counter l → 0 ≤ count_sum k l.
Proof.
  induction 1 as [|c l Hc _ IH]; simpl; [lia|].
  pose proof (counter_get_pos c k Hc). lia.
Qed.

Lemma foldl_iadd_positive a l :
  positive_counter a → positive_counter (foldl counter_iadd a l).
Proof.
  revert a. induction l as [|c l IH]; intros a Ha; simpl; [done|].
  apply IH, counter_iadd_positive.
Qed.

Lemma foldl_iadd_get a l k :
  positive_counter a → Forall positive_counter l →
  counter_get (foldl counter_iadd a l) k = counter_get a k + count_sum k l.
Proof.
  intros Ha Hl. revert a Ha.
  induction Hl as [|c l Hc Hl IH]; intros a Ha; simpl; [lia|].
  rewrite IH by apply counter_iadd_positive.
  rewrite counter_get_iadd.
  pose proof (counter_get_pos a k Ha). pose proof (counter_get_pos c k Hc). lia.
Qed.

Lemma foldl_iadd_perm a l l' :
  positive_counter a → Forall positive_counter l → Permutation l l' →
  foldl counter_iadd a l = foldl counter_iadd a l'.
Proof.
  intros Ha Hl Hp.
  assert (Forall positive_counter l') as Hl'
    by (eapply Permutation_Forall; eauto).
  apply positive_counter_eq; try by apply foldl_iadd_positive.
  intros k. rewrite !foldl_iadd_get by done.
  by rewrite (count_sum_perm k l l').
Qed.

End CounterFacts.

(** ** Tables of counters *)

Section TableFacts.
Implicit Types (master count t : gmap str (gmap str Z)) (w : str).

Lemma lookup_empty_counts keys w :
  empty_counts keys !! w = if decide (w ∈ keys) then Some ∅ else None.
Proof.
  unfold empty_counts. induction keys as [|x keys IH].
  - cbn [map list_to_map foldr]. rewrite lookup_empty.
    rewrite decide_False; [done|]. apply not_elem_of_nil.
  - cbn [map list_to_map foldr fst snd uncurry]. 
    destruct (decide (x = w)) as [->|Hne].
    + rewrite lookup_insert_eq. rewrite decide_True; [done|by left].
    + rewrite lookup_insert_ne by done. rewrite IH.
      destruct (decide (w ∈ keys)) as [Hin|Hin].
      * rewrite decide_True; [done|by right].
      * rewrite decide_False; [done|].
        intros [?|?]%elem_of_cons; by simplify_eq.
Qed.

Lemma merge_into_fold master count m0 :
  (∀ w, is_Some (m0 !! w) → is_Some (count !! w)) →
  ∃ m', map_fold (λ word c acc,
                    match acc with
                    | Raise e => Raise e
                    | Ok m =>
                        match count !! word with
                        | Some cw => Ok (<[word := counter_iadd c cw]> m)
                        | None => Raise KeyError
                        end
                    end)
                 (Ok master) m0 = Ok m' ∧
        ∀ w, m' !! w
             = match m0 !! w with
               | Some c => Some (counter_iadd c (default ∅ (count !! w)))
               | None => master !! w
               end.
Proof.
  revert m0.
  apply (map_fold_weak_ind
           (λ (r : result (gmap str (gmap str Z))) (m : gmap str (gmap str Z)),
              (∀ w, is_Some (m !! w) → is_Some (count !! w)) →
              ∃ m', r = Ok m' ∧
                    ∀ w, m' !! w
                         = match m !! w with
                           | Some c =>
                               Some (counter_iadd c (default ∅ (count !! w)))
                           | None => master !! w
                           end)).
  - intros _. exists master. split; [done|]. intros w. by rewrite lookup_empty.
  - intros i x m r Hi IH Hdom.
    destruct IH as (m' & -> & Hm').
    { intros w Hw. apply Hdom. rewrite lookup_insert_ne; [done|].
      intros ->. rewrite Hi in Hw. by destruct Hw. }
    destruct (Hdom i) as [cw Hcw]; [by rewrite lookup_insert_eq|].
    rewrite Hcw. eexists. split; [done|]. intros w.
    destruct (decide (i = w)) as [->|Hne].
    + rewrite !lookup_insert_eq. by rewrite Hcw.
    + rewrite !lookup_insert_ne by done. apply Hm'.
Qed.

(** The lookups of a merge step that meets no missing key. *)
Lemma merge_into_lookup master count :
  (∀ w, is_Some (master !! w) → is_Some (count !! w)) →
  ∃ m', merge_into master count = Ok m' ∧
        ∀ w, m' !! w
             = (λ c, counter_iadd c (default ∅ (count !! w))) <$> master !! w.
Proof.
  intros H. destruct (merge_into_fold master count master H) as (m' & E & Hm').
  exists m'. split; [done|]. intros w. rewrite Hm'.
  by destruct (master !! w).
Qed.

(** The merge of a whole list of tables, key by key. *)
Lemma merge_from_lookup keys master counts :
  (∀ w, is_Some (master !! w) → w ∈ keys) →
  Forall (table_ok keys) counts →
  ∃ m', foldl (λ acc count,
                 match acc with
                 | Raise e => Raise e
                 | Ok master => merge_into master count
                 end) (Ok master) counts = Ok m' ∧
        ∀ w, m' !! w
             = (λ c, foldl counter_iadd c (map (λ t, default ∅ (t !! w)) counts))
                 <$> master !! w.
Proof.
  intros Hkeys Hall. revert master Hkeys.
  induction Hall as [|t counts Ht _ IH]; intros master Hkeys; simpl.
  - exists master. split; [done|]. intros w. by destruct (master !! w).
  - destruct (merge_into_lookup master t) as (m1 & -> & Hm1).
    { intros w Hw. destruct (Ht w (Hkeys w Hw)) as (c & -> & _). by eexists. }
    destruct (IH m1) as (m' & -> & Hm').
    { intros w. rewrite Hm1. intros [c Hc]. apply Hkeys.
      destruct (master !! w); [by eexists|done]. }
    exists m'. split; [done|]. intros w. rewrite Hm', Hm1.
    by destruct (master !! w).
Qed.

Lemma merge_all_perm keys counts counts' :
  Forall (table_ok keys) counts → Permutation counts counts' →
  merge_all keys counts = merge_all keys counts'.
Proof.
  intros Hall Hperm.
  assert (Forall (table_ok keys) counts') as Hall'
    by (eapply Permutation_Forall; eauto).
  assert (∀ w, is_Some (empty_counts keys !! w) → w ∈ keys) as Hdom.
  { intros w. rewrite lookup_empty_counts. case_decide; [done|by intros []]. }
  unfold merge_all.
  destruct (merge_from_lookup keys _ counts Hdom Hall) as (m1 & -> & H1).
  destruct (merge_from_lookup keys _ counts' Hdom Hall') as (m2 & -> & H2).
  f_equal. apply map_eq. intros w. rewrite H1, H2, lookup_empty_counts.
  case_decide as Hw; [|done]. simpl. f_equal.
  apply foldl_iadd_perm.
  - apply positive_counter_empty.
  - apply Forall_forall. intros c [t [-> Ht]]%list_elem_of_fmap.
    rewrite Forall_forall in Hall.
    destruct (Hall t Ht w Hw) as (c & -> & Hc). done.
  - by apply Permutation_map.
Qed.

End TableFacts.

(** A counter is checked for positive counts by running over its entries. *)
Lemma positive_counter_check (c : gmap str Z) :
  forallb (λ kv : str * Z, 0 <? kv.2) (map_to_list c) = true → positive_counter c.
Proof.
  intros H k v Hk. rewrite forallb_forall in H.
  apply elem_of_map_to_list, list_elem_of_In in Hk.
  specialize (H _ Hk). simpl in H. lia.
Qed.

(** ** Merge of partial counts *)

(** C3. The pointwise-addition merge of [Counter.__iadd__] is commutative
    and associative on counters of positive counts, with the empty counter
    as identity on both sides; merging the per-partition counters of
    [Frequency.execute] one after the other gives the same aggregate for
    every permutation of the list, and so does the word-by-word merge of
    the tables of counters in [SpecificCollocate.execute]. *)
Theorem count_merge_monoid
    (a b c : gmap str Z) (counts counts' : list (gmap str Z))
    (keys : list str) (tables tables' : list (gmap str (gmap str Z))) :
  positive_counter a → positive_counter b → positive_counter c →
  Forall positive_counter counts → Permutation counts counts' →
  Forall (table_ok keys) tables → Permutation tables tables' →
  counter_iadd a b = counter_iadd b a
  ∧ counter_iadd (counter_iadd a b) c = counter_iadd a (counter_iadd b c)
  ∧ counter_iadd ∅ a = a
  ∧ counter_iadd a ∅ = a
  ∧ Frequency.merge_counts counts = Frequency.merge_counts counts'
  ∧ merge_all keys tables = merge_all keys tables'.
Proof.
  intros Ha Hb Hc Hcounts Hperm Htables Hperm'.
  repeat split.
  - apply counter_iadd_comm.
  - by apply counter_iadd_assoc.
  - by apply counter_iadd_empty_l.
  - by apply counter_iadd_empty_r.
  - unfold Frequency.merge_counts.
    by apply foldl_iadd_perm; [apply positive_counter_empty| |].
  - by apply merge_all_perm.
Qed.

Lemma count_merge_monoid_witness :
  Frequency.merge_counts [Samples.count_a; Samples.count_b; Samples.count_c]
  = Frequency.merge_counts [Samples.count_c; Samples.count_a; Samples.count_b]
  ∧ merge_all [u "fox"] [Samples.table_a; Samples.table_b]
    = merge_all [u "fox"] [Samples.table_b; Samples.table_a].
Proof.
  assert (∀ t, forallb (λ kc : str * gmap str Z,
                          forallb (λ kv : str * Z, 0 <? kv.2) (map_to_list kc.2))
                       (map_to_list t) = true →
               t !! u "fox" ≠ None → table_ok [u "fox"] t) as Htable.
  { intros t Hall Hfox w Hw. apply list_elem_of_singleton in Hw as ->.
    destruct (t !! u "fox") as [c|] eqn:E; [|done].
    exists c. split; [done|]. apply positive_counter_check.
    rewrite forallb_forall in Hall.
    apply elem_of_map_to_list, list_elem_of_In in E. apply (Hall _ E). }
  apply (count_merge_monoid Samples.count_a Samples.count_b Samples.count_c
           [Samples.count_a; Samples.count_b; Samples.count_c]
           [Samples.count_c; Samples.count_a; Samples.count_b]
           [u "fox"]
           [Samples.table_a; Samples.table_b] [Samples.table_b; Samples.table_a]).
  - apply positive_counter_check. vm_compute. reflexivity.
  - apply positive_counter_check. vm_compute. reflexivity.
  - apply positive_counter_check. vm_compute. reflexivity.
  - repeat constructor; apply positive_counter_check; vm_compute; reflexivity.
  - apply Permutation_sym, Permutation_cons_append.
  - repeat constructor; apply Htable; vm_compute; (reflexivity || discriminate).
  - apply perm_swap.
Defined.

(** ** Frequency: counting and threshold pruning *)

Section FrequencyFacts.
Implicit Types (c cnt : gmap str Z) (k : str) (thresh l : Z).

Lemma counter_get_incr c k k' :
  counter_get (counter_incr c k) k'
  = if decide (k = k') then counter_get c k + 1 else counter_get c k'.
Proof.
  unfold counter_incr. unfold counter_get at 1.
  case_decide as E.
  - subst. by rewrite lookup_insert_eq.
  - by rewrite lookup_insert_ne.
Qed.

Lemma counter_incr_positive c k :
  positive_counter c → positive_counter (counter_incr c k).
Proof.
  intros Hc k' v. unfold counter_incr.
  destruct (decide (k = k')) as [->|Hne].
  - rewrite lookup_insert_eq. intros [= <-].
    pose proof (counter_get_pos c k' Hc). lia.
  - rewrite lookup_insert_ne by done. apply Hc.
Qed.

Lemma foldl_incr_positive c (keys : list str) :
  positive_counter c → positive_counter (foldl counter_incr c keys).
Proof.
  revert c. induction keys as [|k keys IH]; intros c Hc; simpl; [done|].
  by apply IH, counter_incr_positive.
Qed.

(** Every count recorded by [process] is positive. *)
Lemma count_lines_positive l lines :
  positive_counter (Frequency.count_lines l lines).
Proof.
  unfold Frequency.count_lines.
  generalize (∅ : gmap str Z) (positive_counter_empty).
  induction lines as [|line lines IH]; intros c Hc; simpl; [done|].
  by apply IH, foldl_incr_positive.
Qed.

Lemma lookup_reduce_count thresh cnt k :
  Frequency.reduce_count thresh cnt !! k
  = match cnt !! k with
    | Some v => if bool_decide (thresh < v) then Some v else None
    | None => None
    end.
Proof.
  unfold Frequency.reduce_count. rewrite map_lookup_filter.
  destruct (cnt !! k) as [v|]; simpl; [|done].
  case_bool_decide; case_guard; simpl in *; done.
Qed.

Lemma reduce_count_positive thresh cnt :
  positive_counter cnt → positive_counter (Frequency.reduce_count thresh cnt).
Proof.
  intros Hc k v. rewrite lookup_reduce_count.
  destruct (cnt !! k) as [x|] eqn:E; [|done].
  case_bool_decide; [|done]. intros [= <-]. by apply (Hc k).
Qed.

Lemma reduce_count_le thresh cnt k :
  positive_counter cnt →
  counter_get (Frequency.reduce_count thresh cnt) k ≤ counter_get cnt k.
Proof.
  intros Hc. unfold counter_get. rewrite lookup_reduce_count.
  destruct (cnt !! k) as [x|] eqn:E; simpl; [|lia].
  case_bool_decide; simpl; [lia|]. specialize (Hc _ _ E). lia.
Qed.

Lemma count_sum_reduce_le thresh k (cnts : list (gmap str Z)) :
  Forall positive_counter cnts →
  count_sum k (map (Frequency.reduce_count thresh) cnts) ≤ count_sum k cnts.
Proof.
  induction 1 as [|c cnts Hc _ IH]; simpl; [lia|].
  pose proof (reduce_count_le thresh c k Hc). lia.
Qed.

(** A sum of non-negative counts is zero only if every count is. *)
Lemma count_sum_zero k (cnts : list (gmap str Z)) c :
  Forall positive_counter cnts → count_sum k cnts = 0 → c ∈ cnts →
  counter_get c k = 0.
Proof.
  induction 1 as [|c0 cnts Hc Hall IH]; simpl; intros Hsum Hin.
  - by apply elem_of_nil in Hin.
  - pose proof (counter_get_pos c0 k Hc).
    pose proof (count_sum_nonneg k cnts Hall).
    apply elem_of_cons in Hin as [->|Hin]; [lia|]. apply IH; [lia|done].
Qed.

End FrequencyFacts.

(** C5. [reduce_count] keeps exactly the entries whose count exceeds the
    threshold, each with its count; whatever the order in which the pool
    delivers the reduced counts, a key of the merged aggregate counts no
    more than the sum of its unreduced per-partition counts, and a key
    missing from the aggregate has, in every partition that counted it, a
    count of at most the threshold. *)
Theorem threshold_pruning_lower_bound
    (l thresh : Z) (files : list (list str)) (order : list (gmap str Z))
    (cnt : gmap str Z) (k : str) :
  Permutation order (map (Frequency.process l thresh) files) →
  (Frequency.reduce_count thresh cnt !! k
   = match cnt !! k with
     | Some v => if bool_decide (thresh < v) then Some v else None
     | None => None
     end)
  ∧ (∀ v, Frequency.merge_counts order !! k = Some v →
          v ≤ count_sum k (map (Frequency.count_lines l) files))
  ∧ (Frequency.merge_counts order !! k = None →
     ∀ lines v, lines ∈ files → Frequency.count_lines l lines !! k = Some v →
                v ≤ thresh).
Proof.
  intros Hperm.
  set (raw := map (Frequency.count_lines l) files).
  assert (Forall positive_counter raw) as Hraw.
  { apply Forall_forall. intros c [lines [-> _]]%list_elem_of_fmap.
    apply count_lines_positive. }
  assert (map (Frequency.process l thresh) files
          = map (Frequency.reduce_count thresh) raw) as Hmap.
  { unfold raw. rewrite map_map. done. }
  assert (Forall positive_counter (map (Frequency.reduce_count thresh) raw)) as Hred.
  { apply Forall_forall. intros c [c0 [-> Hc0]]%list_elem_of_fmap.
    apply reduce_count_positive. rewrite Forall_forall in Hraw. by apply Hraw. }
  assert (Forall positive_counter order) as Hord.
  { eapply Permutation_Forall; [symmetry; exact Hperm|]. by rewrite Hmap. }
  assert (counter_get (Frequency.merge_counts order) k
          = count_sum k (map (Frequency.reduce_count thresh) raw)) as Hget.
  { unfold Frequency.merge_counts.
    rewrite foldl_iadd_get by (done || apply positive_counter_empty).
    rewrite counter_get_empty, (count_sum_perm k _ _ Hperm), Hmap. lia. }
  split; [apply lookup_reduce_count|]. split.
  - intros v Hv. unfold counter_get in Hget. rewrite Hv in Hget. simpl in Hget.
    rewrite Hget. by apply count_sum_reduce_le.
  - intros Hnone lines v Hin Hv.
    unfold counter_get in Hget. rewrite Hnone in Hget. simpl in Hget.
    assert (counter_get (Frequency.reduce_count thresh
                           (Frequency.count_lines l lines)) k = 0) as Hz.
    { eapply count_sum_zero; [exact Hred|by symmetry|].
      apply list_elem_of_fmap. eexists. split; [done|].
      unfold raw. apply list_elem_of_fmap. by eexists. }
    unfold counter_get in Hz. rewrite lookup_reduce_count, Hv in Hz.
    case_bool_decide as Hlt; [|lia]. simpl in Hz.
    pose proof (count_lines_positive l lines k v Hv). lia.
Qed.

Lemma threshold_pruning_lower_bound_witness :
  Frequency.reduce_count 1 Samples.count_a !! u "the" = Some 2
  ∧ (∀ v, Frequency.merge_counts
            [Frequency.process 1 1 Samples.part_two;
             Frequency.process 1 1 Samples.part_one] !! u "the" = Some v →
          v ≤ count_sum (u "the")
                (map (Frequency.count_lines 1) [Samples.part_one; Samples.part_two]))
  ∧ (Frequency.merge_counts
       [Frequency.process 1 1 Samples.part_two;
        Frequency.process 1 1 Samples.part_one] !! u "the" = None →
     ∀ lines v, lines ∈ [Samples.part_one; Samples.part_two] →
                Frequency.count_lines 1 lines !! u "the" = Some v → v ≤ 1).
Proof.
  apply (threshold_pruning_lower_bound 1 1
           [Samples.part_one; Samples.part_two]
           [Frequency.process 1 1 Samples.part_two;
            Frequency.process 1 1 Samples.part_one]
           Samples.count_a (u "the")).
  apply perm_swap.
Defined.

(** ** Specific collocates: the ['TOTAL'] entry *)

(** A loop over a fallible step keeps an invariant that every step keeps,
    and does not raise. *)
Lemma foldl_result_invariant {A B} (I : A → Prop) (f : A → B → result A)
    (l : list B) (a : A) :
  I a →
  (∀ a b, I a → ∃ a', f a b = Ok a' ∧ I a') →
  ∃ a', foldl (λ acc b, match acc with
                        | Raise e => Raise e
                        | Ok a => f a b
                        end) (Ok a) l = Ok a' ∧ I a'.
Proof.
  intros Ha Hstep. revert a Ha.
  induction l as [|b l IH]; intros a Ha; simpl; [by exists a|].
  destruct (Hstep a b Ha) as (a' & -> & Ha'). by apply IH.
Qed.

Section TotalFacts.
Implicit Types (t master count : gmap str (gmap str Z)) (c : gmap str Z).
Implicit Types (w k : str) (words : list str) (n : Z).

Lemma total_dominates_insert t w c :
  total_dominates t →
  (∀ k, counter_get c k ≤ counter_get c (u "TOTAL")) →
  total_dominates (<[w := c]> t).
Proof.
  intros Ht Hc w' c'. destruct (decide (w = w')) as [->|Hne].
  - rewrite lookup_insert_eq. by intros [= <-].
  - rewrite lookup_insert_ne by done. apply Ht.
Qed.

Lemma visit_invariant line words n t iw :
  collocate_invariant words t →
  ∃ t', SpecificCollocate.visit line words n t iw = Ok t'
        ∧ collocate_invariant words t'.
Proof.
  intros [Hdom Htot]. destruct iw as [i word]. unfold SpecificCollocate.visit.
  case_bool_decide as Hin; [|by exists t].
  destruct (Hdom word Hin) as [c Hc]. unfold incr_in at 1. rewrite Hc.
  set (c1 := counter_incr c SpecificCollocate.TOTAL).
  assert (∀ k, counter_get c k ≤ counter_get c (u "TOTAL")) as Hle
    by (apply (Htot word c Hc)).
  assert (∀ k, counter_get c1 k ≤ counter_get c1 (u "TOTAL")) as Hle1.
  { intros k. unfold c1. rewrite !counter_get_incr.
    specialize (Hle k). unfold SpecificCollocate.TOTAL.
    repeat case_decide; try done; lia. }
  assert (∀ c', (∀ k, counter_get c' k ≤ counter_get c' (u "TOTAL")) →
                collocate_invariant words (<[word := c']> t)) as Hset.
  { intros c' Hc'. split.
    - intros w Hw. destruct (decide (word = w)) as [->|Hne].
      + rewrite lookup_insert_eq. by eexists.
      + rewrite lookup_insert_ne by done. by apply Hdom.
    - by apply total_dominates_insert. }
  destruct (SpecificCollocate.window line i n) as [phrase|].
  - unfold incr_in. rewrite lookup_insert_eq. eexists. split; [done|].
    rewrite insert_insert_eq. apply Hset. intros k.
    rewrite !counter_get_incr. unfold c1. rewrite !counter_get_incr.
    pose proof (Hle k). pose proof (Hle phrase).
    unfold SpecificCollocate.TOTAL.
    repeat case_decide; simplify_eq; try done; lia.
  - eexists. split; [done|]. by apply Hset.
Qed.

Lemma process_line_invariant words n t line :
  collocate_invariant words t →
  ∃ t', SpecificCollocate.process_line t line words n = Ok t'
        ∧ collocate_invariant words t'.
Proof.
  intros Ht. unfold SpecificCollocate.process_line.
  apply (foldl_result_invariant (collocate_invariant words)
           (SpecificCollocate.visit (Py.split line) words n)); [done|].
  intros a b Ha. by apply visit_invariant.
Qed.

Lemma empty_counts_invariant words : collocate_invariant words (empty_counts words).
Proof.
  split.
  - intros w Hw. rewrite lookup_empty_counts, decide_True by done. by eexists.
  - intros w c. rewrite lookup_empty_counts. case_decide; [|done].
    intros [= <-] k. by rewrite !counter_get_empty.
Qed.

Lemma process_invariant words n lines :
  ∃ t, SpecificCollocate.process words n lines = Ok t
       ∧ collocate_invariant words t.
Proof.
  unfold SpecificCollocate.process.
  apply (foldl_result_invariant (collocate_invariant words)
           (λ count line, SpecificCollocate.process_line count line words n)).
  - apply empty_counts_invariant.
  - intros a b Ha. by apply process_line_invariant.
Qed.

Lemma merge_into_total_dominates master count :
  total_dominates master → total_dominates count →
  (∀ w, is_Some (master !! w) → is_Some (count !! w)) →
  ∃ m', merge_into master count = Ok m' ∧ total_dominates m'
        ∧ ∀ w, is_Some (m' !! w) ↔ is_Some (master !! w).
Proof.
  intros Hm Hc Hdom.
  destruct (merge_into_lookup master count Hdom) as (m' & E & Hm').
  exists m'. split; [done|]. split.
  - intros w c'. rewrite Hm'.
    destruct (master !! w) as [c|] eqn:Ec; [|done]. simpl. intros [= <-] k.
    rewrite !counter_get_iadd.
    pose proof (Hm w c Ec k).
    destruct (count !! w) as [cw|] eqn:Ecw; simpl.
    + pose proof (Hc w cw Ecw k). lia.
    + rewrite !counter_get_empty. lia.
  - intros w. rewrite Hm'. destruct (master !! w); simpl; split; intros [? ?];
      by (eexists || done).
Qed.

End TotalFacts.

Lemma merge_all_total_dominates (words : list str)
    (order : list (gmap str (gmap str Z))) :
  Forall (collocate_invariant words) order →
  ∃ m, merge_all words order = Ok m ∧ total_dominates m.
Proof.
  intros Hall. unfold merge_all.
  assert (∀ master,
            (∀ w, is_Some (master !! w) → w ∈ words) → total_dominates master →
            ∃ m, foldl (λ acc count,
                          match acc with
                          | Raise e => Raise e
                          | Ok master => merge_into master count
                          end) (Ok master) order = Ok m ∧ total_dominates m) as H.
  { induction Hall as [|t order [Hdom Ht] _ IH]; intros master Hkeys Hm; simpl.
    - by exists master.
    - destruct (merge_into_total_dominates master t Hm Ht) as (m1 & -> & Hm1 & Hk1).
      { intros w Hw. by apply Hdom, Hkeys. }
      apply IH; [|done]. intros w Hw. by apply Hkeys, Hk1. }
  apply H.
  - intros w. rewrite lookup_empty_counts. case_decide; [done|by intros []].
  - apply empty_counts_invariant.
Qed.

(** C10. In the table that [SpecificCollocate.process] returns for a
    partition, the count under ['TOTAL'] of every word of interest is at
    least the count under any other key of that word; [process] returns such
    a table for every partition (it does not raise); one merge step keeps
    the property, and so does the merge of any number of per-partition
    tables in any order. The count read by the report as the first entry is
    therefore a greatest count. *)
Theorem total_count_dominates
    (words : list str) (n : Z) (lines : list str)
    (master count : gmap str (gmap str Z))
    (order : list (gmap str (gmap str Z))) :
  total_dominates master → total_dominates count →
  (∀ w, is_Some (master !! w) → is_Some (count !! w)) →
  Forall (λ t, ∃ part, SpecificCollocate.process words n part = Ok t) order →
  (∃ t, SpecificCollocate.process words n lines = Ok t ∧ total_dominates t)
  ∧ (∃ m', merge_into master count = Ok m' ∧ total_dominates m')
  ∧ (∃ m, merge_all words order = Ok m ∧ total_dominates m).
Proof.
  intros Hm Hc Hdom Horder. split; [|split].
  - destruct (process_invariant words n lines) as (t & E & _ & Ht). by exists t.
  - destruct (merge_into_total_dominates master count Hm Hc Hdom)
      as (m' & E & Hm' & _).
    by exists m'.
  - apply merge_all_total_dominates.
    eapply Forall_impl; [exact Horder|]. intros t [part E]. simpl.
    destruct (process_invariant words n part) as (t' & E' & Ht').
    rewrite E in E'. by injection E' as ->.
Qed.

(** The domination of ['TOTAL'] is checked by running over the entries. *)
Lemma total_dominates_check (t : gmap str (gmap str Z)) :
  forallb (λ wc : str * gmap str Z,
             (0 <=? counter_get wc.2 (u "TOTAL"))
             && forallb (λ kv : str * Z, kv.2 <=? counter_get wc.2 (u "TOTAL"))
                        (map_to_list wc.2))
          (map_to_list t) = true →
  total_dominates t.
Proof.
  intros H w c Hw k. rewrite forallb_forall in H.
  apply elem_of_map_to_list, list_elem_of_In in Hw.
  specialize (H _ Hw). simpl in H. apply andb_true_iff in H as [H0 H].
  unfold counter_get at 1. destruct (c !! k) as [v|] eqn:E; simpl; [|lia].
  rewrite forallb_forall in H.
  apply elem_of_map_to_list, list_elem_of_In in E.
  specialize (H _ E). simpl in H. lia.
Qed.

Lemma total_count_dominates_witness :
  (∃ t, SpecificCollocate.process [u "fox"] 1 Samples.part_two = Ok t
        ∧ total_dominates t)
  ∧ (∃ m', merge_into Samples.table_a Samples.table_b = Ok m'
           ∧ total_dominates m')
  ∧ (∃ m, merge_all [u "fox"] [Samples.fox_two; Samples.fox_one] = Ok m
          ∧ total_dominates m).
Proof.
  apply (total_count_dominates [u "fox"] 1 Samples.part_two
           Samples.table_a Samples.table_b [Samples.fox_two; Samples.fox_one]).
  - apply total_dominates_check. vm_compute. reflexivity.
  - apply total_dominates_check. vm_compute. reflexivity.
  - intros w [c Hc]. unfold Samples.table_a, Samples.table_b in *.
    destruct (decide (u "fox" = w)) as [<-|Hne].
    + rewrite lookup_insert_eq. by eexists.
    + rewrite lookup_insert_ne, lookup_empty in Hc; done.
  - repeat constructor.
    + exists [u "one fox jumps far"]. vm_compute. reflexivity.
    + exists [u "the quick brown fox jumps high"; u "a fox"]. vm_compute. reflexivity.
Defined.

(** ** Frequency: phrase windows *)

Lemma range_length (n : Z) : length (Py.range n) = Z.to_nat n.
Proof. unfold Py.range. by rewrite length_map, length_seq. Qed.

(** The generator yields one phrase per index of [range(len(line) - l)]. *)
Lemma generate_groups_length (line : list str) (l : Z) :
  length (Frequency.generate_groups line l) = Z.to_nat (Z.of_nat (length line) - l).
Proof. unfold Frequency.generate_groups. by rewrite length_map, range_length. Qed.

(** C2. On the line of the docstring and of the specification's scenario,
    with phrases of two words, [generate_groups] yields the first two
    windows only: the last window, "brown fox", is not produced. The number
    of phrases is [len(line) - l] ([generate_groups_length]), one short of
    the number of windows, so that with one-word phrases the last word of
    each line is never counted. *)
Theorem generate_groups_drops_last_window :
  Frequency.generate_groups [u "the"; u "quick"; u "brown"; u "fox"] 2
  = [u "the quick"; u "quick brown"]
  ∧ (u "brown fox"
       ∉ Frequency.generate_groups [u "the"; u "quick"; u "brown"; u "fox"] 2)
  ∧ Frequency.process 1 0 [u "the quick brown fox"; u "the quick dog"]
    = <[u "the" := 2]> (<[u "quick" := 2]> (<[u "brown" := 1]> ∅)).
Proof.
  split; [vm_compute; reflexivity|]. split; [|vm_compute; reflexivity].
  intros H. apply list_elem_of_In in H. vm_compute in H.
  intuition discriminate.
Qed.

(** ** Collocate windows *)

(** When the range check of the collocate analyses lets a window through:
    a forward window needs a word before the anchor and a word after the
    window; a backward window is never refused. *)
Lemma specific_window_taken (line : list str) (i n : Z) :
  0 ≤ i < Z.of_nat (length line) →
  is_Some (SpecificCollocate.window line i n)
  ↔ (0 < n → 1 ≤ i ∧ i + n + 1 ≤ Z.of_nat (length line) - 1) ∧ (n = 0 → 1 ≤ i).
Proof.
  intros Hi. unfold SpecificCollocate.window.
  destruct (n <? 0) eqn:E1, (0 <? n) eqn:E2;
    repeat (match goal with |- context [if ?b then _ else _] => destruct b eqn:? end);
    split; intros H; try (by eexists); try (by destruct H as [? ?]);
    try lia; exfalso; lia.
Qed.

(** The general analysis checks its windows with the same code. *)
Lemma general_window_same (line : list str) (i n : Z) :
  GeneralCollocateAnalysis.window line i n = SpecificCollocate.window line i n.
Proof. reflexivity. Qed.

(** C4. The range check of the two collocate analyses does not follow the
    bounds of the window. On the example of the class docstring (anchor
    "the", two words after it) neither "quick brown" nor "lazy dog" is
    counted, although both windows lie inside the line; with a window before
    the anchor, an anchor at the start of the line has the empty phrase
    counted for a window that lies outside the line; the general analysis
    does both on a line that starts with the anchor. *)
Theorem collocate_window_bounds_off :
  SpecificCollocate.process [u "the"] 2
    [u "the quick brown fox jumps over the lazy dog"]
  = Ok (<[u "the" := <[u "TOTAL" := 2]> ∅]> ∅)
  ∧ SpecificCollocate.process_line (empty_counts [u "fox"]) (u "fox jumps high")
      [u "fox"] (-1)
    = Ok (<[u "fox" := <[u "TOTAL" := 1]> (<[[] := 1]> ∅)]> ∅)
  ∧ SpecificCollocate.process_line (empty_counts [u "fox"]) (u "the fox jumps")
      [u "fox"] 1
    = Ok (<[u "fox" := <[u "TOTAL" := 1]> ∅]> ∅)
  ∧ GeneralCollocateAnalysis.process_line (empty_counts [u "fox"]) (u "fox jumps high")
      [u "fox"]
    = Ok (<[u "fox" := <[[] := 2]> ∅]> ∅).
Proof. repeat split; vm_compute; reflexivity. Qed.

(** ** PoS transitions *)

(** A pair is recorded as soon as its first tag is a key of the table,
    whatever its second tag; it is dropped when its first tag is not. *)
Lemma record_pair_known_first (count : gmap str (gmap str Z)) (first second : str)
    (c : gmap str Z) :
  count !! first = Some c →
  PoSFrequency.record_pair count (first, second)
  = <[first := counter_incr c second]> count.
Proof. intros H. unfold PoSFrequency.record_pair, incr_in. simpl. by rewrite H. Qed.

Lemma record_pair_unknown_first (count : gmap str (gmap str Z)) (first second : str) :
  count !! first = None → PoSFrequency.record_pair count (first, second) = count.
Proof. intros H. unfold PoSFrequency.record_pair, incr_in. simpl. by rewrite H. Qed.

Section PoSFacts.
Variable pos_tag : list str → list (str * str).
Variable POS_TAGS : list str.
Implicit Types (count : gmap str (gmap str Z)) (p : str * str).

Local Abbreviation vocabulary_rows := (PoSFrequency.vocabulary_rows POS_TAGS).

Lemma empty_counts_rows : vocabulary_rows (empty_counts POS_TAGS).
Proof.
  intros tag. rewrite lookup_empty_counts.
  destruct (decide (tag ∈ POS_TAGS)) as [Hin|Hout]; split; intros Hs;
    by (done || eexists || destruct Hs).
Qed.

Lemma record_pair_rows count p :
  vocabulary_rows count → vocabulary_rows (PoSFrequency.record_pair count p).
Proof.
  intros Hrows tag. unfold PoSFrequency.record_pair, incr_in.
  destruct (count !! p.1) as [c|] eqn:E; [|apply Hrows].
  destruct (decide (p.1 = tag)) as [<-|Hne].
  - rewrite lookup_insert_eq. split; [|by eexists].
    intros _. apply Hrows. by eexists.
  - rewrite lookup_insert_ne by done. apply Hrows.
Qed.

Lemma foldl_record_pair_rows count (pairs : list (str * str)) :
  vocabulary_rows count →
  vocabulary_rows (foldl PoSFrequency.record_pair count pairs).
Proof.
  revert count. induction pairs as [|p pairs IH]; intros count H; simpl; [done|].
  by apply IH, record_pair_rows.
Qed.

(** Pairs whose first tag is not in the vocabulary leave no trace. *)
Lemma foldl_record_pair_filter count (pairs : list (str * str)) :
  vocabulary_rows count →
  foldl PoSFrequency.record_pair count pairs
  = foldl PoSFrequency.record_pair count (filter (λ p, p.1 ∈ POS_TAGS) pairs).
Proof.
  revert count. induction pairs as [|p pairs IH]; intros count H; [done|].
  destruct (decide (p.1 ∈ POS_TAGS)) as [Hin|Hout].
  - rewrite filter_cons_True by done. simpl. by apply IH, record_pair_rows.
  - rewrite filter_cons_False by done. simpl.
    destruct p as [first second].
    rewrite record_pair_unknown_first; [by apply IH|].
    simpl in Hout. destruct (count !! first) eqn:E; [|done].
    exfalso. apply Hout, H. by eexists.
Qed.

Lemma process_as_pairs (lines : list str) count :
  foldl (λ count line,
           foldl PoSFrequency.record_pair count
             (PoSFrequency.generate_groups pos_tag (Py.split line)))
        count lines
  = foldl PoSFrequency.record_pair count
      (concat (map (λ line, PoSFrequency.generate_groups pos_tag (Py.split line))
                 lines)).
Proof.
  revert count. induction lines as [|line lines IH]; intros count; simpl; [done|].
  by rewrite IH, foldl_app.
Qed.

End PoSFacts.

(** C8 (as the code has it). In the table that [PoSFrequency.process]
    returns, the row keys are exactly the tags of the vocabulary, and the
    table is the one obtained from the pairs whose first tag is in the
    vocabulary alone: a pair whose first tag is unknown is dropped without
    an error. *)
Theorem unknown_first_tag_is_dropped
    (pos_tag : list str → list (str * str)) (POS_TAGS : list str)
    (lines : list str) :
  (∀ tag, is_Some (PoSFrequency.process pos_tag POS_TAGS lines !! tag)
          ↔ tag ∈ POS_TAGS)
  ∧ PoSFrequency.process pos_tag POS_TAGS lines
    = foldl PoSFrequency.record_pair (empty_counts POS_TAGS)
        (filter (λ p, p.1 ∈ POS_TAGS)
           (concat (map (λ line, PoSFrequency.generate_groups pos_tag (Py.split line))
                      lines))).
Proof.
  unfold PoSFrequency.process. rewrite process_as_pairs. split.
  - apply foldl_record_pair_rows, empty_counts_rows.
  - apply foldl_record_pair_filter, empty_counts_rows.
Qed.

(** C8, as stated, fails: a pair whose second tag lies outside the
    vocabulary is counted. With the vocabulary DT, NN and a line tagged
    DT FW, the table returned by [process] holds the key FW under DT. *)
Lemma unknown_second_tag_is_counted :
  PoSFrequency.process Samples.tagger Samples.vocabulary [u "the zzz"]
  = <[u "DT" := <[u "FW" := 1]> ∅]> (<[u "NN" := ∅]> ∅)
  ∧ (u "FW" ∉ Samples.vocabulary).
Proof.
  split; [vm_compute; reflexivity|].
  intros H. apply list_elem_of_In in H. vm_compute in H. intuition discriminate.
Qed.

(** ** Chunk generator *)

Section ChunkFacts.
Import AnalyserTemplate.
Implicit Types (s a b overlap text chunk : str) (file data : list byte).
Implicit Types (p c k j : Z) (pos fuel : nat).

Lemma rsplit_newline_None s : Py.rsplit_newline s = None ↔ 10%N ∉ s.
Proof.
  induction s as [|x s IH]; simpl.
  - split; [intros _; apply not_elem_of_nil|done].
  - destruct (Py.rsplit_newline s) as [[a b]|].
    + split; [done|]. intros Hx. exfalso.
      assert (10%N ∉ s) as Hs by (intros ?; apply Hx; by right).
      apply IH in Hs. done.
    + destruct (N.eqb_spec x 10) as [->|Hne].
      * split; [done|]. intros Hx. exfalso. apply Hx. by left.
      * split; [|done]. intros _ [?|Hin]%elem_of_cons; [done|].
        by apply IH in Hin.
Qed.

Lemma rsplit_newline_Some s a b :
  Py.rsplit_newline s = Some (a, b) → s = a ++ 10%N :: b ∧ 10%N ∉ b.
Proof.
  revert a. induction s as [|x s IH]; intros a; simpl; [done|].
  destruct (Py.rsplit_newline s) as [[a' b']|] eqn:E.
  - intros [= <- <-]. destruct (IH a' eq_refl) as [-> Hb]. done.
  - destruct (N.eqb_spec x 10) as [->|Hne]; [|done].
    intros [= <- <-]. split; [done|]. by apply rsplit_newline_None.
Qed.

(** A window whose assembled buffer holds no line feed fails to unpack. *)
Lemma window_step_no_newline overlap data text :
  decode data = Some text → 10%N ∉ overlap ++ text →
  window_step overlap data = Unpack_error.
Proof.
  intros Hd Hnl. unfold window_step. rewrite Hd.
  apply rsplit_newline_None in Hnl. by rewrite Hnl.
Qed.

(** The overlap carried out of a window holds no line feed. *)
Lemma window_step_overlap overlap data chunk overlap' :
  window_step overlap data = Yielded chunk overlap' → 10%N ∉ overlap'.
Proof.
  unfold window_step. destruct (decode data) as [text|]; [|done].
  destruct (Py.rsplit_newline (overlap ++ text)) as [[a b]|] eqn:E; [|done].
  intros [= <- <-]. by apply rsplit_newline_Some in E as [_ ?].
Qed.

Lemma window_step_empty overlap :
  10%N ∉ overlap → window_step overlap [] = Unpack_error.
Proof.
  intros H. apply (window_step_no_newline overlap [] []); [done|].
  by rewrite app_nil_r.
Qed.

Lemma read_zero file pos : read file pos 0 = Some ([], (pos + 0)%nat).
Proof. unfold read. simpl. by rewrite take_0. Qed.

Lemma read_all_at_end file n :
  -1 ≤ n < 0 → read file (length file) n = Some ([], (length file + 0)%nat).
Proof.
  intros Hn. unfold read.
  destruct (Z.ltb_spec n (-1)) as [?|_]; [lia|].
  destruct (Z.ltb_spec n 0) as [_|?]; [|lia].
  by rewrite drop_all.
Qed.

(** On a file of [k] whole chunks, the loop started at the [j]-th chunk
    boundary with an overlap free of line feeds ends in the unpacking
    error: at the latest in the window read at the end of the file, which
    is empty. *)
Lemma generate_loop_multiple fuel file c k j pos overlap :
  0 < c → 0 ≤ j ≤ k → k - j < Z.of_nat fuel → 10%N ∉ overlap →
  (generate_loop fuel file (k * c) c (j * c) pos overlap).2 = Raised ValueError.
Proof.
  intros Hc. revert j pos overlap.
  induction fuel as [|fuel IH]; intros j pos overlap Hj Hfuel Hnl; [lia|].
  cbn [generate_loop].
  assert ((j * c <=? k * c) = true) as -> by (apply Z.leb_le; nia).
  destruct (decide (j = k)) as [->|Hjk].
  - assert ((k * c - k * c <? c) = true) as -> by (apply Z.ltb_lt; lia).
    replace (k * c - k * c) with 0 by lia.
    by rewrite read_zero, window_step_empty.
  - assert ((k * c - j * c <? c) = false) as -> by (apply Z.ltb_ge; nia).
    replace (j * c + c) with ((j + 1) * c) by lia.
    destruct (read file pos c) as [[data pos']|]; [|apply IH; [lia|lia|done]].
    destruct (window_step overlap data) as [| |chunk overlap'] eqn:E.
    + apply IH; [lia|lia|done].
    + done.
    + specialize (IH (j + 1) pos' overlap').
      destruct (generate_loop fuel file (k * c) c ((j + 1) * c) pos' overlap')
        as [chunks e].
      simpl in *. apply IH; [lia|lia|]. by eapply window_step_overlap.
Qed.

Lemma generate_chunk_multiple file c k :
  0 < c → Z.of_nat (length file) = k * c →
  (generate_chunk file c).2 = Raised ValueError.
Proof.
  intros Hc Hlen. unfold generate_chunk. rewrite Hlen.
  apply (generate_loop_multiple _ file c k 0 0%nat []);
    [done| | |apply not_elem_of_nil]; nia.
Qed.

(** *** Termination of the generator *)

(** With a positive chunk size the loop leaves after at most
    [file_size / chunk_size + 1] windows. *)
Lemma generate_loop_fuel fuel file fs c p pos overlap :
  0 < c → (1 ≤ fuel)%nat → fs - p + c < Z.of_nat fuel * c →
  (generate_loop fuel file fs c p pos overlap).2 ≠ OutOfFuel.
Proof.
  intros Hc. revert p pos overlap.
  induction fuel as [|fuel IH]; intros p pos overlap Hf Hlt; [lia|].
  cbn [generate_loop].
  destruct (Z.leb_spec p fs) as [Hp|Hp]; [|done].
  assert ((1 ≤ fuel)%nat ∧ fs - (p + c) + c < Z.of_nat fuel * c) as [H1 H2]
    by (split; nia).
  destruct (read file pos _) as [[data pos']|]; [|by apply IH].
  destruct (window_step overlap data) as [| |chunk overlap'].
  - by apply IH.
  - done.
  - specialize (IH (p + c) pos' overlap' H1 H2).
    by destruct (generate_loop fuel file fs c (p + c) pos' overlap').
Qed.

(** With a chunk size of [-1] the first window is the whole file and the
    second one is empty. *)
Lemma generate_loop_at_end fuel file p overlap :
  p ≤ Z.of_nat (length file) → 10%N ∉ overlap →
  (generate_loop (S fuel) file (Z.of_nat (length file)) (-1) p (length file)
     overlap).2
  = Raised ValueError.
Proof.
  intros Hp Hnl. cbn [generate_loop].
  destruct (Z.leb_spec p (Z.of_nat (length file))) as [_|?]; [|lia].
  destruct (Z.ltb_spec (Z.of_nat (length file) - p) (-1)) as [?|_]; [lia|].
  rewrite read_all_at_end by lia. by rewrite window_step_empty.
Qed.

(** With a chunk size below [-1] every read is refused and skipped, and
    [p] only decreases: the loop never ends and yields nothing. *)
Lemma generate_loop_hangs fuel file fs c p pos overlap :
  c < -1 → p ≤ fs →
  generate_loop fuel file fs c p pos overlap = ([], OutOfFuel).
Proof.
  intros Hc. revert p.
  induction fuel as [|fuel IH]; intros p Hp; [done|].
  cbn [generate_loop].
  destruct (Z.leb_spec p fs) as [_|?]; [|lia].
  destruct (Z.ltb_spec (fs - p) c) as [?|_]; [lia|].
  unfold read. destruct (Z.ltb_spec c (-1)) as [_|?]; [|lia].
  apply IH. lia.
Qed.

(** The iteration budget of the model is used up only where the loop of the
    source does not end. *)
Lemma generate_chunk_total file c :
  -1 ≤ c → (generate_chunk file c).2 ≠ OutOfFuel.
Proof.
  intros Hc. unfold generate_chunk.
  destruct (decide (c = -1)) as [->|Hc1]; [|destruct (decide (c = 0)) as [->|Hc0]].
  - replace (length file + 2)%nat with (S (S (length file))) by lia.
    remember (S (length file)) as fuel eqn:Hfuel.
    cbn [generate_loop].
    destruct (Z.leb_spec 0 (Z.of_nat (length file))) as [_|?]; [|lia].
    destruct (Z.ltb_spec (Z.of_nat (length file) - 0) (-1)) as [?|_]; [lia|].
    unfold read. change (-1 <? -1) with false. change (-1 <? 0) with true.
    cbv iota. rewrite drop_0. cbn [Nat.add]. subst fuel.
    destruct (window_step [] file) as [| |chunk overlap'] eqn:E.
    + rewrite generate_loop_at_end; [done|lia|apply not_elem_of_nil].
    + done.
    + pose proof (generate_loop_at_end (length file) file (0 + -1) overlap') as H.
      destruct (generate_loop (S (length file)) file _ (-1) (0 + -1) _ overlap')
        as [chunks e].
      simpl in *. rewrite H; [done|lia|]. by eapply window_step_overlap.
  - replace (length file + 2)%nat with (S (S (length file))) by lia.
    remember (S (length file)) as fuel eqn:Hfuel.
    cbn [generate_loop].
    destruct (Z.leb_spec 0 (Z.of_nat (length file))) as [_|?]; [|lia].
    destruct (Z.ltb_spec (Z.of_nat (length file) - 0) 0) as [?|_]; [lia|].
    rewrite read_zero.
    by rewrite window_step_empty by apply not_elem_of_nil.
  - apply generate_loop_fuel; [lia|lia|nia].
Qed.

Lemma generate_chunk_hangs file c :
  c < -1 → generate_chunk file c = ([], OutOfFuel).
Proof. intros Hc. apply generate_loop_hangs; [done|lia]. Qed.

(** *** What the chunks hold when the generator runs to its end *)

Lemma decode_ascii data :
  Forall (λ x : byte, (Byte.to_N x < 128)%N) data → decode data = Some (map Byte.to_N data).
Proof.
  induction 1 as [|x data Hx _ IH]; [done|].
  cbn [decode map]. destruct (N.ltb_spec (Byte.to_N x) 128) as [_|?]; [|lia].
  by rewrite IH.
Qed.

(** On a file of ASCII bytes read with a positive chunk size, a run that
    reaches the end of the loop has split the text at line feeds only: the
    chunks, each followed by the line feed that [rsplit] removed, and then
    the overlap left in the generator, are the text that was still to be
    read. *)
Lemma generate_loop_content fuel file c p overlap chunks rest :
  0 < c → 0 ≤ p →
  Forall (λ x : byte, (Byte.to_N x < 128)%N) file →
  generate_loop fuel file (Z.of_nat (length file)) c p (Z.to_nat p) overlap
  = (chunks, Exhausted rest) →
  concat (map (λ chunk, chunk ++ [10%N]) chunks) ++ rest
  = overlap ++ map Byte.to_N (drop (Z.to_nat p) file).
Proof.
  intros Hc Hp Hascii. revert p Hp overlap chunks.
  induction fuel as [|fuel IH]; intros p Hp overlap chunks; [done|].
  cbn [generate_loop].
  destruct (Z.leb_spec p (Z.of_nat (length file))) as [Hle|Hgt].
  2:{ intros [= <- <-]. rewrite drop_ge by lia. simpl. by rewrite app_nil_r. }
  set (n := if Z.of_nat (length file) - p <? c
            then Z.of_nat (length file) - p else c).
  assert (0 ≤ n ≤ Z.of_nat (length file) - p ∧ n ≤ c) as Hn
    by (unfold n; destruct (Z.ltb_spec (Z.of_nat (length file) - p) c); lia).
  unfold read. destruct (Z.ltb_spec n (-1)) as [?|_]; [lia|].
  destruct (Z.ltb_spec n 0) as [?|_]; [lia|].
  set (data := take (Z.to_nat n) (drop (Z.to_nat p) file)).
  assert (length data = Z.to_nat n) as Hlen.
  { unfold data. rewrite length_take, length_drop. lia. }
  rewrite Hlen.
  assert (Forall (λ x : byte, (Byte.to_N x < 128)%N) data) as Hdata.
  { unfold data. by apply Forall_take, Forall_drop. }
  unfold window_step. rewrite (decode_ascii data Hdata).
  destruct (Py.rsplit_newline (overlap ++ map Byte.to_N data))
    as [[chunk overlap']|] eqn:E; [|done].
  apply rsplit_newline_Some in E as [E _].
  destruct (generate_loop fuel file _ c (p + c) _ overlap') as [chunks' e] eqn:Eloop.
  intros [= <- ->]. cbn [map concat].
  rewrite <- !app_assoc. cbn [app].
  destruct (Z.leb_spec (p + c) (Z.of_nat (length file))) as [Hnext|Hlast].
  - assert (n = c) as Hnc
      by (unfold n; destruct (Z.ltb_spec (Z.of_nat (length file) - p) c); lia).
    rewrite Hnc in *.
    replace (Z.to_nat p + Z.to_nat c)%nat with (Z.to_nat (p + c)) in Eloop by lia.
    apply IH in Eloop; [|lia]. rewrite Eloop.
    transitivity ((chunk ++ 10%N :: overlap')
                  ++ map Byte.to_N (drop (Z.to_nat (p + c)) file));
      [by rewrite <- app_assoc|].
    rewrite <- E, <- app_assoc. f_equal.
    rewrite <- map_app. f_equal. unfold data. rewrite Hnc.
    replace (Z.to_nat (p + c)) with (Z.to_nat p + Z.to_nat c)%nat by lia.
    rewrite <- drop_drop. apply take_drop.
  - destruct fuel as [|fuel']; [done|].
    cbn [generate_loop] in Eloop.
    destruct (Z.leb_spec (p + c) (Z.of_nat (length file))) as [?|_]; [lia|].
    injection Eloop as <- <-. cbn [map concat app].
    rewrite <- E. f_equal. f_equal.
    unfold data. apply take_ge. rewrite length_drop.
    assert (n = Z.of_nat (length file) - p) as ->
      by (unfold n; destruct (Z.ltb_spec (Z.of_nat (length file) - p) c); lia).
    lia.
Qed.

Lemma generate_chunk_content file c chunks rest :
  0 < c → Forall (λ x : byte, (Byte.to_N x < 128)%N) file →
  generate_chunk file c = (chunks, Exhausted rest) →
  concat (map (λ chunk, chunk ++ [10%N]) chunks) ++ rest = map Byte.to_N file.
Proof.
  intros Hc Hascii Hgen.
  by apply (generate_loop_content _ file c 0 [] chunks rest Hc) in Hgen.
Qed.

End ChunkFacts.

(** ** Division of ints *)

Lemma round_half_even_cases (n d : Z) :
  0 < d →
  ∃ q r, n = d * q + r ∧ 0 ≤ r < d
         ∧ ((Py.round_half_even n d = q + 1 ∧ (d < 2 * r ∨ (2 * r = d ∧ Z.odd q = true)))
            ∨ (Py.round_half_even n d = q ∧ 2 * r ≤ d ∧ (2 * r = d → Z.odd q = false))).
Proof.
  intros Hd. exists (n / d), (n mod d).
  split; [apply Z.div_mod; lia|]. split; [apply Z.mod_pos_bound; lia|].
  unfold Py.round_half_even. cbv zeta.
  destruct (Z.ltb_spec d (2 * (n mod d))) as [H1|H1]; simpl.
  - left. split; [done|]. by left.
  - destruct (Z.eqb_spec (2 * (n mod d)) d) as [H2|H2]; simpl.
    + destruct (Z.odd (n / d)) eqn:E.
      * left. split; [done|]. by right.
      * right. split; [done|]. split; [lia|done].
    + right. split; [done|]. split; [lia|done].
Qed.

Lemma round_half_even_gt (n d T : Z) :
  0 < d → Z.even T = true →
  T < Py.round_half_even n d ↔ (2 * T + 1) * d < 2 * n.
Proof.
  intros Hd HT.
  destruct (round_half_even_cases n d Hd) as (q & r & Hn & Hr & Hcase).
  destruct Hcase as [[-> Hup]|[-> [Hlow Htie]]].
  - split.
    + intros Hlt. destruct (decide (T = q)) as [->|Hne].
      * destruct Hup as [Hup|[_ Hodd]]; [nia|].
        rewrite <- Z.negb_even, HT in Hodd. done.
      * nia.
    + intros Hlt. nia.
  - split.
    + intros Hlt. nia.
    + intros Hlt. destruct (decide (q ≤ T)) as [Hle|?]; [|lia].
      exfalso. nia.
Qed.

Lemma round_half_even_floor (n d : Z) : 0 < d → n / d ≤ Py.round_half_even n d.
Proof.
  intros Hd. unfold Py.round_half_even. cbv zeta.
  destruct (_ || _); lia.
Qed.

Lemma round_half_even_upper (n d : Z) : 0 < d → Py.round_half_even n d * d ≤ n + d.
Proof.
  intros Hd.
  destruct (round_half_even_cases n d Hd) as (q & r & Hn & Hr & Hcase).
  destruct Hcase as [[-> _]|[-> _]]; nia.
Qed.

(** [Py.quotient_log2 n d] is the exponent of the power of two just below the quotient. *)
Lemma quotient_log2_lower (n d : Z) :
  0 < n → 0 < d → 0 ≤ Py.quotient_log2 n d → d * 2 ^ Py.quotient_log2 n d ≤ n.
Proof.
  intros Hn Hd. unfold Py.quotient_log2. cbv zeta.
  pose proof (Z.log2_spec n Hn) as [Hn1 Hn2].
  pose proof (Z.log2_spec d Hd) as [Hd1 Hd2].
  pose proof (Z.log2_nonneg n). pose proof (Z.log2_nonneg d).
  set (l := Z.log2 n - Z.log2 d) in *.
  destruct (Z.leb_spec 0 l) as [Hl|Hl].
  - destruct (Z.ltb_spec n (d * 2 ^ l)) as [Hb|Hb]; [|lia].
    intros Hl1.
    assert (2 ^ Z.log2 n = 2 ^ (l - 1) * 2 ^ Z.succ (Z.log2 d)) as E.
    { rewrite <- Z.pow_add_r by lia. f_equal. lia. }
    assert (0 < 2 ^ (l - 1)) by (apply Z.pow_pos_nonneg; lia).
    nia.
  - destruct (Z.ltb_spec (n * 2 ^ (- l)) d); lia.
Qed.

Lemma quotient_log2_upper (n d : Z) :
  0 < n → 0 < d →
  if 0 <=? Py.quotient_log2 n d + 1 then n < d * 2 ^ (Py.quotient_log2 n d + 1) else n < d.
Proof.
  intros Hn Hd. unfold Py.quotient_log2. cbv zeta.
  pose proof (Z.log2_spec n Hn) as [Hn1 Hn2].
  pose proof (Z.log2_spec d Hd) as [Hd1 Hd2].
  pose proof (Z.log2_nonneg n). pose proof (Z.log2_nonneg d).
  set (l := Z.log2 n - Z.log2 d) in *.
  destruct (Z.leb_spec 0 l) as [Hl|Hl].
  - destruct (Z.ltb_spec n (d * 2 ^ l)) as [Hb|Hb].
    + replace (l - 1 + 1) with l by lia.
      destruct (Z.leb_spec 0 l); [done|lia].
    + destruct (Z.leb_spec 0 (l + 1)); [|lia].
      assert (2 ^ Z.succ (Z.log2 n) = 2 ^ (l + 1) * 2 ^ Z.log2 d) as E.
      { rewrite <- Z.pow_add_r by lia. f_equal. lia. }
      assert (0 < 2 ^ (l + 1)) by (apply Z.pow_pos_nonneg; lia).
      nia.
  - assert (0 < 2 ^ (- l)) by (apply Z.pow_pos_nonneg; lia).
    destruct (Z.ltb_spec (n * 2 ^ (- l)) d) as [Hb|Hb].
    + replace (l - 1 + 1) with l by lia.
      destruct (Z.leb_spec 0 l); [lia|].
      assert (n * 1 ≤ n * 2 ^ (- l)) by (apply Z.mul_le_mono_nonneg_l; lia). lia.
    + destruct (Z.leb_spec 0 (l + 1)) as [Hl1|Hl1].
      * assert (Z.succ (Z.log2 n) = Z.log2 d) as E by lia.
        rewrite E in Hn2.
        replace (l + 1) with 0 by lia. change (2 ^ 0) with 1. lia.
      * assert (2 ^ Z.succ (Z.log2 n) ≤ 2 ^ Z.log2 d)
          by (apply Z.pow_le_mono_r; lia).
        lia.
Qed.

Lemma true_divide_exceeds_500 (n d : Z) :
  0 ≤ n < 2 ^ 1023 → 0 < d →
  ∃ x, Py.true_divide n d = Ok x
       ∧ (QArith_base.Qle_bool x (QArith_base.inject_Z 500) = false
          ↔ (500 * 2 ^ 45 + 1) * d < n * 2 ^ 45).
Proof.
  intros [Hn0 Hn] Hd. unfold Py.true_divide.
  destruct (Z.eqb_spec d 0) as [?|_]; [lia|].
  destruct (Z.eqb_spec n 0) as [->|Hne].
  { eexists. split; [done|]. split; [done|]. lia. }
  assert (0 < n) as Hpos by lia.
  rewrite (Z.abs_eq n), (Z.abs_eq d) by lia.
  rewrite (Z.sgn_pos n), (Z.sgn_pos d) by lia. change (1 * 1 <? 0) with false.
  cbv zeta. cbv iota.
  pose proof (quotient_log2_lower n d Hpos Hd) as FL.
  pose proof (quotient_log2_upper n d Hpos Hd) as FU.
  set (l := Py.quotient_log2 n d) in *.
  set (e := Z.max (l - 52) (-1074)).
  destruct (Z.leb_spec 0 e) as [He|He].
  - (* the last place is a whole number *)
    assert (e = l - 52) as El by lia.
    assert (0 < 2 ^ e) as Hp by (apply Z.pow_pos_nonneg; lia).
    assert (d * 2 ^ e * 2 ^ 52 ≤ n) as Hlow.
    { assert (2 ^ l = 2 ^ e * 2 ^ 52) as E
        by (rewrite <- Z.pow_add_r by lia; f_equal; lia).
      specialize (FL ltac:(lia)). nia. }
    assert (0 < d * 2 ^ e) as Hde by nia.
    pose proof (round_half_even_upper n (d * 2 ^ e) Hde) as Hup.
    pose proof (round_half_even_floor n (d * 2 ^ e) Hde) as Hfl.
    assert (2 ^ 52 ≤ n / (d * 2 ^ e)) as Hdiv
      by (apply Z.div_le_lower_bound; lia).
    set (m := Py.round_half_even n (d * 2 ^ e)) in *.
    assert (m * 2 ^ e < 2 ^ 1024) as Hov.
    { assert (0 < 2 ^ 52) by done.
      assert (0 ≤ m * 2 ^ e) by (apply Z.mul_nonneg_nonneg; lia).
      assert (m * 2 ^ e * 1 ≤ m * 2 ^ e * d)
        by (apply Z.mul_le_mono_nonneg_l; lia).
      assert (d * 2 ^ e * 1 ≤ d * 2 ^ e * 2 ^ 52)
        by (apply Z.mul_le_mono_nonneg_l; lia).
      assert (2 ^ 1024 = 2 * 2 ^ 1023) as -> by done.
      lia. }
    assert (QArith_base.Qle_bool (QArith_base.inject_Z (2 ^ 1024))
              (QArith_base.inject_Z (m * 2 ^ e)) = false) as ->.
    { unfold QArith_base.Qle_bool, QArith_base.inject_Z. simpl QArith_base.Qnum.
      simpl QArith_base.Qden. apply Z.leb_gt. lia. }
    eexists. split; [done|].
    unfold QArith_base.Qle_bool, QArith_base.inject_Z. simpl QArith_base.Qnum.
    simpl QArith_base.Qden. rewrite Z.leb_gt.
    assert (2 ^ 52 ≤ m * 2 ^ e) by nia.
    split; [|lia]. intros _. nia.
  - (* the last place is a fraction *)
    set (k := - e) in *.
    assert (0 < k) as Hk by lia.
    assert (0 < 2 ^ k) as Hp by (apply Z.pow_pos_nonneg; lia).
    assert (Z.pos (Z.to_pos (2 ^ k)) = 2 ^ k) as Eden by (apply Z2Pos.id; lia).
    pose proof (round_half_even_upper (n * 2 ^ k) d Hd) as Hup.
    pose proof (round_half_even_floor (n * 2 ^ k) d Hd) as Hfl.
    assert (0 ≤ n * 2 ^ k / d) as Hdiv by (apply Z.div_pos; nia).
    assert (Z.even (500 * 2 ^ k) = true) as Heven.
    { replace k with (Z.succ (k - 1)) by lia. rewrite Z.pow_succ_r by lia.
      replace (500 * (2 * 2 ^ (k - 1))) with (2 * (500 * 2 ^ (k - 1))) by lia.
      by rewrite Z.even_mul. }
    pose proof (round_half_even_gt (n * 2 ^ k) d (500 * 2 ^ k) Hd Heven) as Hgt.
    set (m := Py.round_half_even (n * 2 ^ k) d) in *.
    assert (QArith_base.Qle_bool (QArith_base.inject_Z (2 ^ 1024))
              (QArith_base.Qmake m (Z.to_pos (2 ^ k))) = false) as ->.
    { unfold QArith_base.Qle_bool, QArith_base.inject_Z. simpl QArith_base.Qnum.
      simpl QArith_base.Qden. rewrite Eden. apply Z.leb_gt.
      assert (m ≤ m * d) by nia. nia. }
    eexists. split; [done|].
    unfold QArith_base.Qle_bool, QArith_base.inject_Z. simpl QArith_base.Qnum.
    simpl QArith_base.Qden. rewrite Eden, Z.leb_gt.
    replace (m * 1) with m by lia. rewrite Hgt.
    destruct (Z.lt_trichotomy l 8) as [Hl|[Hl|Hl]].
    + (* the quotient is below 256 *)
      assert (n < d * 256) as Hsmall.
      { destruct (Z.leb_spec 0 (l + 1)); [|lia].
        assert (2 ^ (l + 1) ≤ 2 ^ 8) by (apply Z.pow_le_mono_r; lia).
        change (2 ^ 8) with 256 in *. nia. }
      split; intros; exfalso; nia.
    + (* the quotient is in [256, 512): the last place is 2^-44 *)
      assert (k = 44) as -> by lia. lia.
    + (* the quotient is at least 512 *)
      assert (d * 512 ≤ n) as Hbig.
      { specialize (FL ltac:(lia)).
        assert (2 ^ 9 ≤ 2 ^ l) by (apply Z.pow_le_mono_r; lia).
        change (2 ^ 9) with 512 in *. nia. }
      split; intros _; nia.
Qed.

(** ** Ingestion *)

Section IngestFacts.
Import AnalyserTemplate.
Variable lower : str → str.
Variable NORM_TABLE PUNC_TABLE : N → option str.
Variable lstrip rstrip : Z.

Local Abbreviation pre_process_file :=
  (pre_process_file lower NORM_TABLE PUNC_TABLE lstrip rstrip).
Local Abbreviation pre_process_files :=
  (pre_process_files lower NORM_TABLE PUNC_TABLE lstrip rstrip).
Local Abbreviation pre_process_resource :=
  (pre_process_resource lower NORM_TABLE PUNC_TABLE lstrip rstrip).
Local Abbreviation pre_process_chunk :=
  (pre_process_chunk lower NORM_TABLE PUNC_TABLE lstrip rstrip).
Local Abbreviation write_chunks :=
  (write_chunks lower NORM_TABLE PUNC_TABLE lstrip rstrip).

(** An exception of the generator escapes the loop over the file. *)
Lemma pre_process_file_raises (c : Z) (w : world) (file : list byte) :
  c ≠ 0 → (generate_chunk file c).2 = Raised ValueError →
  ∃ err, (pre_process_file c w file).2 = Raises err.
Proof.
  intros Hc Hgen. unfold AnalyserTemplate.pre_process_file. cbv zeta.
  destruct (Py.true_divide _ 12) as [_|e0]; [|by eexists].
  destruct (too_many_partitions _ c) as [[|]|e0]; [ | | by eexists].
  { destruct (dir w); by eexists. }
  destruct (generate_chunk file c) as [chunks e]. simpl in Hgen. subst e.
  assert (∃ w' o, write_chunks w chunks = (w', o) ∧ o ≠ Hangs)
    as (w' & o & -> & Ho).
  { clear. revert w. induction chunks as [|chunk chunks IH]; intros w; simpl.
    - by exists w, Returns.
    - destruct (pre_process_chunk w chunk) as [w1|e]; [apply IH|].
      by exists w, (Raises e). }
  destruct o; [by eexists|by eexists|done].
Qed.

(** *** The slot scan *)

Lemma find_seq_Some (P : Z → bool) (a m : nat) (i : Z) :
  List.find P (map Z.of_nat (seq a m)) = Some i
  ↔ Z.of_nat a ≤ i < Z.of_nat a + Z.of_nat m ∧ P i = true
    ∧ ∀ j, Z.of_nat a ≤ j < i → P j = false.
Proof.
  revert a. induction m as [|m IH]; intros a; simpl.
  - split; [done|]. intros [? _]. lia.
  - destruct (P (Z.of_nat a)) eqn:E.
    + split.
      * intros [= <-]. split; [lia|]. split; [done|]. intros j ?. lia.
      * intros (Hi & Hp & Hfirst).
        destruct (decide (i = Z.of_nat a)) as [->|Hne]; [done|].
        rewrite Hfirst in E; [done|lia].
    + rewrite IH. split.
      * intros (Hi & Hp & Hfirst). split; [lia|]. split; [done|].
        intros j Hj. destruct (decide (j = Z.of_nat a)) as [->|Hne]; [done|].
        apply Hfirst. lia.
      * intros (Hi & Hp & Hfirst).
        assert (i ≠ Z.of_nat a) by (intros ->; congruence).
        split; [lia|]. split; [done|]. intros j Hj. apply Hfirst. lia.
Qed.

Lemma find_seq_None (P : Z → bool) (a m : nat) :
  List.find P (map Z.of_nat (seq a m)) = None
  ↔ ∀ j, Z.of_nat a ≤ j < Z.of_nat a + Z.of_nat m → P j = false.
Proof.
  revert a. induction m as [|m IH]; intros a; simpl.
  - split; [|done]. intros _ j ?. lia.
  - destruct (P (Z.of_nat a)) eqn:E.
    + split; [done|]. intros H. rewrite H in E; [done|lia].
    + rewrite IH. split.
      * intros H j Hj. destruct (decide (j = Z.of_nat a)) as [->|Hne]; [done|].
        apply H. lia.
      * intros H j Hj. apply H. lia.
Qed.

(** The scan returns the least free index below 1000. *)
Lemma first_free_slot_Some (files : gmap Z str) (i : Z) :
  first_free_slot files = Some i
  ↔ 0 ≤ i < 1000 ∧ files !! i = None ∧ ∀ j, 0 ≤ j < i → is_Some (files !! j).
Proof.
  unfold first_free_slot, Py.range. rewrite find_seq_Some.
  change (Z.of_nat (Z.to_nat 1000)) with 1000. change (Z.of_nat 0) with 0.
  rewrite bool_decide_eq_true. split.
  - intros (Hi & Hp & Hfirst). split; [lia|]. split; [done|].
    intros j Hj. specialize (Hfirst j Hj). apply bool_decide_eq_false in Hfirst.
    destruct (files !! j); [by eexists|done].
  - intros (Hi & Hp & Hfirst). split; [lia|]. split; [done|].
    intros j Hj. apply bool_decide_eq_false. by destruct (Hfirst j Hj) as [x ->].
Qed.

Lemma first_free_slot_None (files : gmap Z str) :
  first_free_slot files = None ↔ ∀ j, 0 ≤ j < 1000 → is_Some (files !! j).
Proof.
  unfold first_free_slot, Py.range. rewrite find_seq_None.
  change (Z.of_nat (Z.to_nat 1000)) with 1000. change (Z.of_nat 0) with 0.
  split.
  - intros H j Hj. specialize (H j). rewrite bool_decide_eq_false in H.
    destruct (files !! j); [by eexists|]. exfalso. apply H; [lia|done].
  - intros H j Hj. apply bool_decide_eq_false.
    destruct (H j) as [x ->]; [lia|done].
Qed.

(** *** The partition-count guard *)

(** For a positive chunk size the guard is passed exactly when the exact
    quotient exceeds 500 by more than 2^-45, half the distance from 500 to
    the next double. *)
Lemma too_many_partitions_threshold (file_size c : Z) :
  0 ≤ file_size < 2 ^ 1023 → 0 < c →
  too_many_partitions file_size c
  = Ok (bool_decide ((500 * 2 ^ 45 + 1) * c < file_size * 2 ^ 45)).
Proof.
  intros Hsize Hc. unfold too_many_partitions.
  destruct (true_divide_exceeds_500 file_size c Hsize Hc) as (x & -> & Hx).
  f_equal. destruct (QArith_base.Qle_bool x (QArith_base.inject_Z 500)) eqn:E; simpl.
  - symmetry. apply bool_decide_eq_false. intros H. apply Hx in H. done.
  - symmetry. apply bool_decide_eq_true. by apply Hx.
Qed.

(** Below a chunk size of 2^45 the exact quotient cannot fall between 500
    and 500 + 2^-45. *)
Lemma quotient_exceeds_threshold (file_size c : Z) :
  0 < c < 2 ^ 45 →
  quotient_exceeds file_size c 500
  ↔ (500 * 2 ^ 45 + 1) * c < file_size * 2 ^ 45.
Proof.
  intros [Hc Hc']. unfold quotient_exceeds.
  unfold QArith_base.Qlt, QArith_base.Qdiv, QArith_base.Qmult,
    QArith_base.Qinv, QArith_base.inject_Z.
  destruct c as [|q|q]; [lia| |lia]. simpl QArith_base.Qnum. simpl QArith_base.Qden.
  change (Z.pos (1 * q)) with (Z.pos q). lia.
Qed.

Lemma pre_process_file_too_many (c : Z) (w : world) (file : list byte) :
  0 < c → Z.of_nat (length file) < 2 ^ 1023 →
  (500 * 2 ^ 45 + 1) * c < Z.of_nat (length file) * 2 ^ 45 →
  is_Some (dir w) →
  pre_process_file c w file = (World None (trace w ++ [Rmtree]), Raises ValueError).
Proof.
  intros Hc Hsize Hq [files Hdir]. unfold AnalyserTemplate.pre_process_file. cbv zeta.
  destruct (true_divide_exceeds_500 (Z.of_nat (length file)) 12) as (x & -> & _);
    [lia|lia|].
  rewrite too_many_partitions_threshold by lia.
  rewrite bool_decide_eq_true_2 by done. by rewrite Hdir.
Qed.

(** The directory is still there after a file that was ingested without an
    exception. *)
Lemma write_chunks_dir (chunks : list str) (w w' : world) (o : outcome) :
  is_Some (dir w) → write_chunks w chunks = (w', o) → is_Some (dir w').
Proof.
  revert w. induction chunks as [|chunk chunks IH]; intros w Hdir; simpl.
  - by intros [= <- _].
  - unfold AnalyserTemplate.pre_process_chunk.
    destruct Hdir as [files Hdir]. rewrite Hdir.
    destruct (first_free_slot files) as [i|].
    + apply IH. by eexists.
    + apply IH. by eexists.
Qed.

Lemma pre_process_files_dir (c : Z) (files : list (list byte)) (w w' : world) :
  is_Some (dir w) → pre_process_files c w files = (w', Returns) → is_Some (dir w').
Proof.
  revert w. induction files as [|file files IH]; intros w Hdir; simpl.
  - by intros [= <-].
  - destruct (pre_process_file c w file) as [w1 o] eqn:E.
    destruct o as [|err|]; [|done|done].
    apply IH. revert E. unfold AnalyserTemplate.pre_process_file. cbv zeta.
    destruct (Py.true_divide _ 12) as [_|e0]; [|done].
    destruct (too_many_partitions _ c) as [[|]|e0]; [|  |done].
    { by destruct (dir w). }
    destruct (generate_chunk file c) as [chunks e].
    destruct (write_chunks w chunks) as [w2 o2] eqn:E2.
    pose proof (write_chunks_dir chunks w w2 o2 Hdir E2) as Hdir2.
    destruct o2 as [|err|]; [|done|done].
    destruct e; by intros [= <-].
Qed.

Lemma pre_process_files_app (c : Z) (w w' : world) (before rest : list (list byte)) :
  pre_process_files c w before = (w', Returns) →
  pre_process_files c w (before ++ rest) = pre_process_files c w' rest.
Proof.
  revert w. induction before as [|f before IH]; intros w; simpl.
  - by intros [= ->].
  - destruct (pre_process_file c w f) as [w1 [|err|]]; [apply IH|done|done].
Qed.

End IngestFacts.

(** C9. A window whose assembled buffer holds no line feed makes the
    generator stop with the [ValueError] of the failed unpacking, whatever
    was yielded before; on a file whose size is a whole multiple of a
    positive chunk size the generator always ends in that error (the window
    read at the end of the file is empty and the carried overlap holds no
    line feed), and the exception escapes [pre_process_resource]'s loop over
    that file. *)
Theorem unpack_error_on_exact_multiple
    (lower : str → str) (NORM_TABLE PUNC_TABLE : N → option str) (lstrip rstrip : Z)
    (w : AnalyserTemplate.world)
    (fuel : nat) (file' : list byte) (fs c' p : Z) (pos pos' : nat)
    (data : list byte) (overlap text : str)
    (file : list byte) (c k : Z) :
  p ≤ fs →
  AnalyserTemplate.read file' pos (if fs - p <? c' then fs - p else c')
  = Some (data, pos') →
  AnalyserTemplate.decode data = Some text →
  10%N ∉ overlap ++ text →
  0 < c → Z.of_nat (length file) = k * c →
  AnalyserTemplate.generate_loop (S fuel) file' fs c' p pos overlap
  = ([], AnalyserTemplate.Raised ValueError)
  ∧ (AnalyserTemplate.generate_chunk file c).2 = AnalyserTemplate.Raised ValueError
  ∧ ∃ err, (AnalyserTemplate.pre_process_file
              lower NORM_TABLE PUNC_TABLE lstrip rstrip c w file).2 = Raises err.
Proof.
  intros Hp Hread Hdec Hnl Hc Hlen. split; [|split].
  - cbn [AnalyserTemplate.generate_loop].
    destruct (Z.leb_spec p fs) as [_|?]; [|lia].
    rewrite Hread. by rewrite (window_step_no_newline overlap data text).
  - by apply (generate_chunk_multiple file c k).
  - apply pre_process_file_raises; [lia|]. by apply (generate_chunk_multiple file c k).
Qed.

Lemma unpack_error_on_exact_multiple_witness :
  AnalyserTemplate.generate_loop 1 Samples.long_line 5 3 0 0 []
  = ([], AnalyserTemplate.Raised ValueError)
  ∧ (AnalyserTemplate.generate_chunk Samples.two_lines 3).2
    = AnalyserTemplate.Raised ValueError
  ∧ ∃ err, (AnalyserTemplate.pre_process_file
              id Samples.keep Samples.keep 0 0 3
              (AnalyserTemplate.World (Some ∅) []) Samples.two_lines).2 = Raises err.
Proof.
  apply (unpack_error_on_exact_multiple id Samples.keep Samples.keep 0 0
           (AnalyserTemplate.World (Some ∅) [])
           0 Samples.long_line 5 3 0 0 3 (Samples.raw "abc") [] (u "abc")
           Samples.two_lines 3 2).
  - lia.
  - vm_compute. reflexivity.
  - vm_compute. reflexivity.
  - intros H. apply list_elem_of_In in H. vm_compute in H. intuition discriminate.
  - lia.
  - vm_compute. reflexivity.
Defined.

(** C6 (as the code has it). For a positive chunk size below 2^45 bytes
    and a raw file whose size divided by the chunk size exceeds 500, the
    guard of [pre_process_resource] is passed, and the loop body writes no
    partition of that file: it removes the destination directory, with
    whatever it held when the file's turn came, and raises [ValueError], so
    that no partition output is left behind. The partitions of the raw
    files ingested before it in the same call have been written by then:
    their writes come before the removal in the trace. When the file is the
    first one, the only effects of the whole call are the creation of the
    directory, if it was missing, and its removal. (The size is taken below
    2^1023 bytes, where no division overflows a double.) *)
Theorem too_many_partitions_rollback
    (lower : str → str) (NORM_TABLE PUNC_TABLE : N → option str) (lstrip rstrip : Z)
    (c : Z) (w0 w : AnalyserTemplate.world)
    (before : list (list byte)) (file : list byte) (rest : list (list byte)) :
  0 < c < 2 ^ 45 →
  Z.of_nat (length file) < 2 ^ 1023 →
  quotient_exceeds (Z.of_nat (length file)) c 500 →
  AnalyserTemplate.too_many_partitions (Z.of_nat (length file)) c = Ok true
  ∧ (is_Some (AnalyserTemplate.dir w) →
     AnalyserTemplate.pre_process_file lower NORM_TABLE PUNC_TABLE lstrip rstrip
       c w file
     = (AnalyserTemplate.World None
          (AnalyserTemplate.trace w ++ [AnalyserTemplate.Rmtree]),
        Raises ValueError))
  ∧ (AnalyserTemplate.pre_process_resource lower NORM_TABLE PUNC_TABLE lstrip rstrip
       c w0 before = (w, Returns) →
     AnalyserTemplate.pre_process_resource lower NORM_TABLE PUNC_TABLE lstrip rstrip
       c w0 (before ++ file :: rest)
     = (AnalyserTemplate.World None
          (AnalyserTemplate.trace w ++ [AnalyserTemplate.Rmtree]),
        Raises ValueError))
  ∧ AnalyserTemplate.pre_process_resource lower NORM_TABLE PUNC_TABLE lstrip rstrip
      c w0 (file :: rest)
    = (AnalyserTemplate.World None
         (AnalyserTemplate.trace w0
          ++ match AnalyserTemplate.dir w0 with
             | None => [AnalyserTemplate.Mkdir]
             | Some _ => []
             end
          ++ [AnalyserTemplate.Rmtree]),
       Raises ValueError).
Proof.
  intros Hc Hsize Hq. apply quotient_exceeds_threshold in Hq; [|done].
  split; [|split; [|split]].
  - rewrite too_many_partitions_threshold by lia.
    by rewrite bool_decide_eq_true_2.
  - intros Hdir. apply pre_process_file_too_many; [lia|done|done|done].
  - destruct before as [|f before]; [done|].
    unfold AnalyserTemplate.pre_process_resource.
    change ((f :: before) ++ file :: rest) with (f :: (before ++ file :: rest)).
    cbv zeta. intros Hbefore.
    change (f :: (before ++ file :: rest)) with ((f :: before) ++ file :: rest).
    rewrite (pre_process_files_app _ _ _ _ _ _ _ w) by exact Hbefore.
    cbn [AnalyserTemplate.pre_process_files].
    rewrite pre_process_file_too_many; [done|lia|done|done|].
    eapply pre_process_files_dir; [|exact Hbefore].
    by destruct (AnalyserTemplate.dir w0) eqn:E; [rewrite E|].
  - unfold AnalyserTemplate.pre_process_resource.
    cbn [AnalyserTemplate.pre_process_files].
    rewrite pre_process_file_too_many; [|lia|done|done|].
    + destruct w0 as [[files|] tr]; simpl; [done|]. by rewrite <- app_assoc.
    + by destruct (AnalyserTemplate.dir w0) eqn:E; [rewrite E|].
Qed.

Lemma too_many_partitions_rollback_witness :
  AnalyserTemplate.pre_process_resource id Samples.keep Samples.keep 0 0 2
    (AnalyserTemplate.World (Some ∅) [])
    ([Samples.three_newlines] ++ Samples.many_newlines :: [])
  = (AnalyserTemplate.World None
       [AnalyserTemplate.Write_partition 0 Samples.nl;
        AnalyserTemplate.Write_partition 1 [];
        AnalyserTemplate.Rmtree],
     Raises ValueError).
Proof.
  assert (0 < 2 < 2 ^ 45) as Hc by (split; reflexivity).
  assert (Z.of_nat (length Samples.many_newlines) < 2 ^ 1023) as Hsize
    by (vm_compute; reflexivity).
  assert (quotient_exceeds (Z.of_nat (length Samples.many_newlines)) 2 500) as Hq
    by (vm_compute; reflexivity).
  assert (AnalyserTemplate.pre_process_resource id Samples.keep Samples.keep 0 0 2
            (AnalyserTemplate.World (Some ∅) []) [Samples.three_newlines]
          = (AnalyserTemplate.World
               (Some (<[1 := []]> (<[0 := Samples.nl]> ∅)))
               [AnalyserTemplate.Write_partition 0 Samples.nl;
                AnalyserTemplate.Write_partition 1 []],
             Returns)) as Hbefore
    by (vm_compute; reflexivity).
  exact (proj1 (proj2 (proj2 (too_many_partitions_rollback
                                id Samples.keep Samples.keep 0 0 2 _ _
                                [Samples.three_newlines] Samples.many_newlines []
                                Hc Hsize Hq))) Hbefore).
Defined.

(** C6, the claim as written. In a run over two raw files with a chunk
    size of 2, where the second file is more than 500 chunk sizes long, two
    partitions are written before the error is raised. And the guard is not
    passed by every quotient above 500: with a chunk size of 2^45 and a
    file one byte longer than 500 chunks, the quotient rounds to the double
    500.0. *)
Lemma partitions_written_before_rollback :
  quotient_exceeds (Z.of_nat (length Samples.many_newlines)) 2 500
  ∧ AnalyserTemplate.pre_process_resource id Samples.keep Samples.keep 0 0 2
      (AnalyserTemplate.World None [])
      [Samples.three_newlines; Samples.many_newlines]
    = (AnalyserTemplate.World None
         [AnalyserTemplate.Mkdir;
          AnalyserTemplate.Write_partition 0 Samples.nl;
          AnalyserTemplate.Write_partition 1 [];
          AnalyserTemplate.Rmtree],
       Raises ValueError)
  ∧ quotient_exceeds (500 * 2 ^ 45 + 1) (2 ^ 45) 500
  ∧ AnalyserTemplate.too_many_partitions (500 * 2 ^ 45 + 1) (2 ^ 45) = Ok false.
Proof.
  split; [vm_compute; reflexivity|].
  split; [vm_compute; reflexivity|].
  split; vm_compute; reflexivity.
Qed.

(** C7 (as the code has it). A chunk worker writes its normalized block to
    the least slot index in 0..999 whose file does not exist, and changes
    nothing else; when the thousand slots are all taken it writes nothing
    and returns without an error. *)
Theorem chunk_goes_to_first_free_slot
    (lower : str → str) (NORM_TABLE PUNC_TABLE : N → option str) (lstrip rstrip : Z)
    (files full : gmap Z str) (tr : list AnalyserTemplate.fs_event)
    (chunk : str) (i : Z) :
  0 ≤ i < 1000 → files !! i = None → (∀ j, 0 ≤ j < i → is_Some (files !! j)) →
  (∀ j, 0 ≤ j < 1000 → is_Some (full !! j)) →
  AnalyserTemplate.pre_process_chunk lower NORM_TABLE PUNC_TABLE lstrip rstrip
    (AnalyserTemplate.World (Some files) tr) chunk
  = Ok (AnalyserTemplate.World
          (Some (<[i := AnalyserTemplate.normalized_block
                           lower NORM_TABLE PUNC_TABLE lstrip rstrip chunk]> files))
          (tr ++ [AnalyserTemplate.Write_partition i
                    (AnalyserTemplate.normalized_block
                       lower NORM_TABLE PUNC_TABLE lstrip rstrip chunk)]))
  ∧ AnalyserTemplate.pre_process_chunk lower NORM_TABLE PUNC_TABLE lstrip rstrip
      (AnalyserTemplate.World (Some full) tr) chunk
    = Ok (AnalyserTemplate.World (Some full) tr).
Proof.
  intros Hi Hfree Hbelow Hfull. unfold AnalyserTemplate.pre_process_chunk.
  cbn [AnalyserTemplate.dir AnalyserTemplate.trace]. split.
  - assert (AnalyserTemplate.first_free_slot files = Some i) as ->; [|done].
    by apply first_free_slot_Some.
  - assert (AnalyserTemplate.first_free_slot full = None) as ->; [|done].
    by apply first_free_slot_None.
Qed.

Lemma chunk_goes_to_first_free_slot_witness :
  AnalyserTemplate.pre_process_chunk id Samples.keep Samples.keep 0 0
    (AnalyserTemplate.World (Some Samples.one_partition) []) (u "The  Quick fox")
  = Ok (AnalyserTemplate.World
          (Some (<[1 := u "The Quick fox" ++ Samples.nl]> Samples.one_partition))
          [AnalyserTemplate.Write_partition 1 (u "The Quick fox" ++ Samples.nl)])
  ∧ AnalyserTemplate.pre_process_chunk id Samples.keep Samples.keep 0 0
      (AnalyserTemplate.World (Some Samples.full_folder) []) (u "The  Quick fox")
    = Ok (AnalyserTemplate.World (Some Samples.full_folder) []).
Proof.
  apply (chunk_goes_to_first_free_slot id Samples.keep Samples.keep 0 0
           Samples.one_partition Samples.full_folder [] (u "The  Quick fox") 1).
  - lia.
  - reflexivity.
  - intros j Hj. replace j with 0 by lia. by eexists.
  - apply first_free_slot_None. vm_compute. reflexivity.
Defined.

(** C7, as stated, fails: with the thousand slots taken, the worker returns
    normally, the directory is what it was, and the chunk is not stored. *)
Lemma full_folder_drops_chunk :
  AnalyserTemplate.first_free_slot Samples.full_folder = None
  ∧ AnalyserTemplate.pre_process_chunk id Samples.keep Samples.keep 0 0
      (AnalyserTemplate.World (Some Samples.full_folder) []) (u "lost line")
    = Ok (AnalyserTemplate.World (Some Samples.full_folder) [])
  ∧ ¬ ∃ e, AnalyserTemplate.pre_process_chunk id Samples.keep Samples.keep 0 0
             (AnalyserTemplate.World (Some Samples.full_folder) []) (u "lost line")
           = Raise e.
Proof.
  assert (AnalyserTemplate.pre_process_chunk id Samples.keep Samples.keep 0 0
            (AnalyserTemplate.World (Some Samples.full_folder) []) (u "lost line")
          = Ok (AnalyserTemplate.World (Some Samples.full_folder) [])) as E
    by (vm_compute; reflexivity).
  split; [vm_compute; reflexivity|]. split; [exact E|].
  intros [e He]. rewrite E in He. discriminate.
Qed.

(** C1. The chunks do not reproduce the lines of every file. A line longer
    than the chunk size stops the generator before anything is yielded; the
    text after the last line feed stays in the overlap when the loop ends
    and is never yielded; and on a file of whole chunks the generator
    raises after its last chunk. *)
Theorem chunk_generator_loses_lines :
  AnalyserTemplate.generate_chunk Samples.long_line 3
  = ([], AnalyserTemplate.Raised ValueError)
  ∧ AnalyserTemplate.generate_chunk Samples.open_end 10
    = ([u "a"], AnalyserTemplate.Exhausted (u "b"))
  ∧ AnalyserTemplate.generate_chunk Samples.two_lines 3
    = ([u "ab"; u "cd"], AnalyserTemplate.Raised ValueError).
Proof. repeat split; vm_compute; reflexivity. Qed.

(** * Further properties *)

(** ** Totals of counters *)

Section TotalCountFacts.
Implicit Types (a b c : gmap str Z) (k : str) (x v : Z).

Lemma total_count_empty : total_count ∅ = 0.
Proof. unfold total_count. by rewrite map_fold_empty. Qed.

Lemma total_count_insert_fresh c k x :
  c !! k = None → total_count (<[k := x]> c) = x + total_count c.
Proof.
  intros Hk. unfold total_count.
  rewrite map_fold_insert_L; [done| |done]. intros. lia.
Qed.

Lemma total_count_insert c k x :
  total_count (<[k := x]> c) = x + total_count c - counter_get c k.
Proof.
  unfold counter_get. destruct (c !! k) as [y|] eqn:E; simpl.
  - assert (total_count c = y + total_count (delete k c)) as ->.
    { rewrite <- (total_count_insert_fresh (delete k c) k y)
        by apply lookup_delete_eq.
      by rewrite insert_delete_id. }
    rewrite <- insert_delete_eq.
    rewrite total_count_insert_fresh by apply lookup_delete_eq. lia.
  - rewrite total_count_insert_fresh by done. lia.
Qed.

Lemma total_count_incr c k : total_count (counter_incr c k) = total_count c + 1.
Proof. unfold counter_incr. rewrite total_count_insert. lia. Qed.

Lemma total_count_nonneg c : positive_counter c → 0 ≤ total_count c.
Proof.
  induction c as [|k x c Hk IH] using map_ind; intros Hc.
  - by rewrite total_count_empty.
  - rewrite total_count_insert_fresh by done.
    assert (0 < x) by (apply (Hc k); by rewrite lookup_insert_eq).
    assert (0 ≤ total_count c); [|lia].
    apply IH. intros k' v Hv. apply (Hc k').
    rewrite lookup_insert_ne; [done|]. intros ->. congruence.
Qed.

Lemma counter_get_le_total c k :
  positive_counter c → counter_get c k ≤ total_count c.
Proof.
  intros Hc. unfold counter_get. destruct (c !! k) as [y|] eqn:E; simpl.
  - assert (total_count c = y + total_count (delete k c)) as ->.
    { rewrite <- (total_count_insert_fresh (delete k c) k y)
        by apply lookup_delete_eq.
      by rewrite insert_delete_id. }
    assert (0 ≤ total_count (delete k c)); [|lia].
    apply total_count_nonneg. intros k' v Hv.
    apply lookup_delete_Some in Hv as [_ Hv]. by apply (Hc k').
  - by apply total_count_nonneg.
Qed.

Lemma counter_get_insert c k k' x :
  counter_get (<[k := x]> c) k' = if decide (k = k') then x else counter_get c k'.
Proof.
  unfold counter_get. case_decide as E.
  - subst. by rewrite lookup_insert_eq.
  - by rewrite lookup_insert_ne.
Qed.

Lemma positive_counter_insert c k x :
  positive_counter c → 0 < x → positive_counter (<[k := x]> c).
Proof.
  intros Hc Hx k' v. destruct (decide (k = k')) as [<-|Hne].
  - rewrite lookup_insert_eq. by intros [= <-].
  - rewrite lookup_insert_ne by done. apply Hc.
Qed.

(** On counters of positive counts, [+=] is the insertion of the sums. *)
Lemma counter_iadd_insert a b k v :
  positive_counter a → positive_counter b → b !! k = None → 0 < v →
  counter_iadd a (<[k := v]> b)
  = <[k := counter_get a k + v]> (counter_iadd a b).
Proof.
  intros Ha Hb Hk Hv.
  pose proof (counter_get_pos a k Ha).
  apply positive_counter_eq.
  - apply counter_iadd_positive.
  - apply positive_counter_insert; [apply counter_iadd_positive|lia].
  - intros k'. rewrite counter_get_insert, !counter_get_iadd, counter_get_insert.
    pose proof (counter_get_pos a k' Ha). pose proof (counter_get_pos b k' Hb).
    case_decide; subst; lia.
Qed.

Lemma total_count_iadd a b :
  positive_counter a → positive_counter b →
  total_count (counter_iadd a b) = total_count a + total_count b.
Proof.
  intros Ha. induction b as [|k v b Hk IH] using map_ind; intros Hb.
  - rewrite counter_iadd_empty_r by done. rewrite total_count_empty. lia.
  - assert (0 < v) as Hv by (apply (Hb k); by rewrite lookup_insert_eq).
    assert (positive_counter b) as Hb'.
    { intros k' v' Hv'. apply (Hb k').
      rewrite lookup_insert_ne; [done|]. intros ->. congruence. }
    rewrite counter_iadd_insert by done.
    rewrite total_count_insert, total_count_insert_fresh by done.
    rewrite IH by done. rewrite counter_get_iadd.
    unfold counter_get at 3. rewrite Hk. simpl.
    pose proof (counter_get_pos a k Ha). lia.
Qed.

Lemma total_count_foldl_iadd a (l : list (gmap str Z)) :
  positive_counter a → Forall positive_counter l →
  total_count (foldl counter_iadd a l)
  = total_count a + foldr (λ c s, total_count c + s) 0 l.
Proof.
  intros Ha Hl. revert a Ha.
  induction Hl as [|c l Hc _ IH]; intros a Ha; simpl; [lia|].
  rewrite IH by apply counter_iadd_positive.
  rewrite total_count_iadd by done. lia.
Qed.

End TotalCountFacts.

(** ** Frequency: what the counts are *)

Section CountingFacts.
Context {A : Type} `{EqDecision A}.
Implicit Types (x y : A) (l : list A).

Lemma occurrences_nil x : occurrences x [] = 0.
Proof. done. Qed.

Lemma occurrences_cons x y l :
  occurrences x (y :: l) = (if decide (y = x) then 1 else 0) + occurrences x l.
Proof.
  unfold occurrences. destruct (decide (y = x)) as [E|E].
  - rewrite filter_cons_True by done. simpl. lia.
  - rewrite filter_cons_False by done. lia.
Qed.

Lemma occurrences_app x l l' :
  occurrences x (l ++ l') = occurrences x l + occurrences x l'.
Proof. unfold occurrences. rewrite filter_app, length_app. lia. Qed.

Lemma occurrences_nonneg x l : 0 ≤ occurrences x l.
Proof. unfold occurrences. lia. Qed.

Lemma occurrences_perm x l l' : Permutation l l' → occurrences x l = occurrences x l'.
Proof. intros Hp. unfold occurrences. by rewrite Hp. Qed.

End CountingFacts.

Lemma foldl_incr_get (c : gmap str Z) (keys : list str) (k : str) :
  counter_get (foldl counter_incr c keys) k = counter_get c k + occurrences k keys.
Proof.
  revert c. induction keys as [|x keys IH]; intros c; simpl.
  - rewrite occurrences_nil. lia.
  - rewrite IH, counter_get_incr, occurrences_cons. case_decide; subst; lia.
Qed.

Lemma foldl_incr_total (c : gmap str Z) (keys : list str) :
  total_count (foldl counter_incr c keys) = total_count c + Z.of_nat (length keys).
Proof.
  revert c. induction keys as [|x keys IH]; intros c; simpl; [lia|].
  rewrite IH, total_count_incr. lia.
Qed.

(** The loop over the lines counts the phrases of all the lines. *)
Lemma count_lines_groups (l : Z) (lines : list str) :
  Frequency.count_lines l lines = foldl counter_incr ∅ (all_groups l lines).
Proof.
  unfold Frequency.count_lines, all_groups. generalize (∅ : gmap str Z).
  induction lines as [|line lines IH]; intros c; simpl; [done|].
  by rewrite IH, foldl_app.
Qed.

(** On counters of positive counts a threshold below one discards nothing. *)
Lemma reduce_count_keeps_all (thresh : Z) (cnt : gmap str Z) :
  thresh < 1 → positive_counter cnt → Frequency.reduce_count thresh cnt = cnt.
Proof.
  intros Ht Hc. apply map_eq. intros k. rewrite lookup_reduce_count.
  destruct (cnt !! k) as [v|] eqn:E; [|done].
  specialize (Hc _ _ E). by rewrite bool_decide_eq_true_2 by lia.
Qed.

Lemma count_sum_occurrences (l : Z) (k : str) (files : list (list str)) :
  count_sum k (map (Frequency.count_lines l) files)
  = occurrences k (concat (map (all_groups l) files)).
Proof.
  induction files as [|lines files IH]; simpl; [done|].
  rewrite occurrences_app, IH, count_lines_groups, foldl_incr_get.
  rewrite counter_get_empty. lia.
Qed.

(** X1. The counter that [Frequency.process] builds before the reduction
    holds, for every phrase, the number of times the phrase generator
    yielded it over the lines of the partition, and its total is the number
    of phrases yielded. *)
Theorem frequency_counts_generated_phrases (l : Z) (lines : list str) (k : str) :
  counter_get (Frequency.count_lines l lines) k = occurrences k (all_groups l lines)
  ∧ total_count (Frequency.count_lines l lines)
    = Z.of_nat (length (all_groups l lines)).
Proof.
  rewrite count_lines_groups, foldl_incr_get, foldl_incr_total.
  rewrite counter_get_empty, total_count_empty. lia.
Qed.

(** X2. With a discard threshold below one (zero in particular) nothing is
    pruned: whatever the order in which the partial counts arrive, the merged
    count of a phrase is the number of times it was generated over all the
    partitions. *)
Theorem frequency_exact_without_pruning
    (l thresh : Z) (files : list (list str)) (order : list (gmap str Z)) (k : str) :
  thresh < 1 →
  Permutation order (map (Frequency.process l thresh) files) →
  counter_get (Frequency.merge_counts order) k
  = occurrences k (concat (map (all_groups l) files)).
Proof.
  intros Ht Hperm.
  assert (map (Frequency.process l thresh) files
          = map (Frequency.count_lines l) files) as Hmap.
  { apply map_ext. intros lines. unfold Frequency.process.
    apply reduce_count_keeps_all; [done|apply count_lines_positive]. }
  rewrite Hmap in Hperm.
  assert (Forall positive_counter (map (Frequency.count_lines l) files)) as Hraw.
  { apply Forall_forall. intros c [lines [-> _]]%list_elem_of_fmap.
    apply count_lines_positive. }
  unfold Frequency.merge_counts.
  rewrite (foldl_iadd_perm ∅ order (map (Frequency.count_lines l) files)).
  - rewrite foldl_iadd_get by (done || apply positive_counter_empty).
    rewrite counter_get_empty, count_sum_occurrences. lia.
  - apply positive_counter_empty.
  - eapply Permutation_Forall; [symmetry; exact Hperm|done].
  - done.
Qed.

Lemma frequency_exact_without_pruning_witness :
  counter_get
    (Frequency.merge_counts [Frequency.process 1 0 Samples.part_two;
                             Frequency.process 1 0 Samples.part_one]) (u "the")
  = occurrences (u "the")
      (concat (map (all_groups 1) [Samples.part_one; Samples.part_two])).
Proof.
  apply (frequency_exact_without_pruning 1 0
           [Samples.part_one; Samples.part_two]
           [Frequency.process 1 0 Samples.part_two;
            Frequency.process 1 0 Samples.part_one] (u "the")).
  - lia.
  - apply perm_swap.
Defined.

(** X3. In the master count that [Frequency.save] reports, every count is
    positive and at most the total that it is divided by: the division of
    the report never meets a zero total, and no relative frequency exceeds
    one. *)
Theorem frequency_report_ratios (counts : list (gmap str Z)) (k : str) (v : Z) :
  Frequency.merge_counts counts !! k = Some v →
  0 < v ≤ total_count (Frequency.merge_counts counts).
Proof.
  intros Hk.
  assert (positive_counter (Frequency.merge_counts counts)) as Hpos
    by (apply foldl_iadd_positive, positive_counter_empty).
  split; [by apply (Hpos k)|].
  pose proof (counter_get_le_total _ k Hpos) as Hle.
  unfold counter_get in Hle. by rewrite Hk in Hle.
Qed.

Lemma frequency_report_ratios_witness :
  0 < 3 ≤ total_count
            (Frequency.merge_counts [Samples.count_a; Samples.count_b; Samples.count_c]).
Proof.
  apply (frequency_report_ratios
           [Samples.count_a; Samples.count_b; Samples.count_c] (u "the") 3).
  vm_compute. reflexivity.
Defined.

(** X4. Merging counters of positive counts adds up their totals: the total
    of the master count is the sum of the totals of the partial counts. *)
Theorem merged_total_is_sum (counts : list (gmap str Z)) :
  Forall positive_counter counts →
  total_count (Frequency.merge_counts counts)
  = foldr (λ c s, total_count c + s) 0 counts.
Proof.
  intros Hall. unfold Frequency.merge_counts.
  rewrite total_count_foldl_iadd by (done || apply positive_counter_empty).
  rewrite total_count_empty. lia.
Qed.

Lemma merged_total_is_sum_witness :
  total_count
    (Frequency.merge_counts [Samples.count_a; Samples.count_b; Samples.count_c])
  = foldr (λ c s, total_count c + s) 0
      [Samples.count_a; Samples.count_b; Samples.count_c].
Proof.
  apply (merged_total_is_sum [Samples.count_a; Samples.count_b; Samples.count_c]).
  repeat constructor; apply positive_counter_check; vm_compute; reflexivity.
Defined.

(** ** PoS transitions: what the matrix holds *)

Section TransitionFacts.
Variable pos_tag : list str → list (str * str).
Implicit Types (count : gmap str (gmap str Z)) (pairs : list (str * str)).

Lemma consecutive_pairs (t : list (str * str)) :
  map (λ j : nat, ((t !!! j).2, (t !!! S j).2)) (seq 0 (length t - 1))
  = zip (t.*2) (tail (t.*2)).
Proof.
  induction t as [|x t IH]; [done|].
  destruct t as [|y r]; [done|].
  replace (length (x :: y :: r) - 1)%nat with (S (length (y :: r) - 1))
    by (simpl; lia).
  change (zip (x :: y :: r).*2 (tail (x :: y :: r).*2))
    with ((x.2, y.2) :: zip (y :: r).*2 (tail (y :: r).*2)).
  cbn [seq map]. rewrite <- seq_shift, map_map. f_equal.
  rewrite <- IH. by apply map_ext.
Qed.

Lemma generate_groups_zip (line : list str) :
  PoSFrequency.generate_groups pos_tag line
  = zip ((pos_tag line).*2) (tail ((pos_tag line).*2)).
Proof.
  unfold PoSFrequency.generate_groups, Py.range.
  rewrite <- consecutive_pairs, map_map.
  replace (Z.to_nat (Z.of_nat (length (pos_tag line)) - 1))
    with (length (pos_tag line) - 1)%nat by lia.
  apply map_ext. intros j. rewrite Nat2Z.id.
  by replace (Z.to_nat (Z.of_nat j + 1)) with (S j) by lia.
Qed.

Lemma foldl_record_pair_row count pairs (a : str) (c0 : gmap str Z) :
  count !! a = Some c0 →
  ∃ c, foldl PoSFrequency.record_pair count pairs !! a = Some c
       ∧ (∀ b, counter_get c b = counter_get c0 b + occurrences (a, b) pairs)
       ∧ total_count c
         = total_count c0 + Z.of_nat (length (filter (λ p, p.1 = a) pairs)).
Proof.
  revert count c0. induction pairs as [|[f s] pairs IH]; intros count c0 Ha.
  - exists c0. split; [done|]. split; [|simpl; lia].
    intros b. rewrite occurrences_nil. lia.
  - cbn [foldl]. destruct (decide (f = a)) as [->|Hne].
    + rewrite (record_pair_known_first count a s c0 Ha).
      destruct (IH (<[a := counter_incr c0 s]> count) (counter_incr c0 s))
        as (c & Hc & Hget & Htot); [by rewrite lookup_insert_eq|].
      exists c. split; [done|]. split.
      * intros b. rewrite Hget, counter_get_incr, occurrences_cons.
        repeat case_decide; simplify_eq; lia.
      * rewrite Htot, total_count_incr, filter_cons_True by done. simpl. lia.
    + assert (PoSFrequency.record_pair count (f, s) !! a = Some c0) as Ha'.
      { unfold PoSFrequency.record_pair, incr_in. simpl.
        destruct (count !! f); [by rewrite lookup_insert_ne|done]. }
      destruct (IH _ c0 Ha') as (c & Hc & Hget & Htot).
      exists c. split; [done|]. split.
      * intros b. rewrite Hget, occurrences_cons.
        case_decide; simplify_eq; lia.
      * by rewrite Htot, filter_cons_False by done.
Qed.

End TransitionFacts.

(** X5. [PoSFrequency.generate_groups] yields exactly the pairs of
    consecutive tags of the tagged line, in order: the tags zipped with the
    tags from the second one on (none for a line of fewer than two tokens). *)
Theorem pos_groups_are_consecutive_pairs
    (pos_tag : list str → list (str * str)) (line : list str) :
  PoSFrequency.generate_groups pos_tag line
  = zip ((pos_tag line).*2) (tail ((pos_tag line).*2)).
Proof. apply generate_groups_zip. Qed.

(** X6. For a tag [a] of the vocabulary, the row of [a] in the table that
    [PoSFrequency.process] returns holds under every tag [b] the number of
    pairs (a, b) met in the partition, whether or not [b] is in the
    vocabulary, and the total of the row is the number of pairs that start
    with [a]. *)
Theorem pos_row_counts_pairs
    (pos_tag : list str → list (str * str)) (POS_TAGS : list str)
    (lines : list str) (a : str) :
  a ∈ POS_TAGS →
  ∃ c, PoSFrequency.process pos_tag POS_TAGS lines !! a = Some c
       ∧ (∀ b, counter_get c b = occurrences (a, b) (all_tag_pairs pos_tag lines))
       ∧ total_count c
         = Z.of_nat (length (filter (λ p, p.1 = a) (all_tag_pairs pos_tag lines))).
Proof.
  intros Ha. unfold PoSFrequency.process, all_tag_pairs.
  rewrite process_as_pairs.
  destruct (foldl_record_pair_row (empty_counts POS_TAGS)
              (concat (map (λ line, PoSFrequency.generate_groups pos_tag (Py.split line))
                         lines)) a ∅)
    as (c & Hc & Hget & Htot).
  { by rewrite lookup_empty_counts, decide_True. }
  exists c. split; [done|]. split.
  - intros b. rewrite Hget, counter_get_empty. lia.
  - rewrite Htot, total_count_empty. lia.
Qed.

Lemma pos_row_counts_pairs_witness :
  ∃ c, PoSFrequency.process Samples.tagger Samples.vocabulary
         [u "the fox the zzz"] !! u "DT" = Some c
       ∧ (∀ b, counter_get c b
               = occurrences (u "DT", b)
                   (all_tag_pairs Samples.tagger [u "the fox the zzz"]))
       ∧ total_count c
         = Z.of_nat (length (filter (λ p, p.1 = u "DT")
                               (all_tag_pairs Samples.tagger [u "the fox the zzz"]))).
Proof.
  apply (pos_row_counts_pairs Samples.tagger Samples.vocabulary
           [u "the fox the zzz"] (u "DT")).
  by left.
Defined.

(** ** Slices and enumerations *)

Lemma slice_in_range {A} (l : list A) (a b : Z) :
  0 ≤ a → a ≤ b → b ≤ Z.of_nat (length l) →
  Py.slice l a b = take (Z.to_nat (b - a)) (drop (Z.to_nat a) l)
  ∧ length (Py.slice l a b) = Z.to_nat (b - a).
Proof.
  intros Ha Hab Hb. unfold Py.slice, Py.clamp.
  destruct (Z.ltb_spec a 0) as [?|_]; [lia|].
  destruct (Z.ltb_spec b 0) as [?|_]; [lia|].
  rewrite !Z.min_l by lia. split; [done|].
  rewrite length_take, length_drop. lia.
Qed.

Lemma slice_subseteq {A} (l : list A) (a b : Z) : Py.slice l a b ⊆ l.
Proof.
  unfold Py.slice. etrans; [apply subseteq_take|apply subseteq_drop].
Qed.

Lemma enumerate_snd {A} (l : list A) : (enumerate l).*2 = l.
Proof.
  unfold enumerate. apply snd_zip. rewrite range_length. lia.
Qed.

(** A loop over a fallible step stays with the exception once it is raised. *)
Lemma foldl_raise {A B} (f : A → B → result A) (l : list B) (e : exn) :
  foldl (λ acc b, match acc with
                  | Raise e => Raise e
                  | Ok a => f a b
                  end) (Raise e) l = Raise e.
Proof. induction l as [|b l IH]; [done|]. simpl. apply IH. Qed.

(** ** Specific collocates: the total and the windows *)

Section SpecificFacts.
Implicit Types (t count : gmap str (gmap str Z)) (c : gmap str Z).
Implicit Types (w k phrase : str) (words line : list str) (n i : Z).

Lemma join_is_total (l : list str) :
  Py.join (u " ") l = u "TOTAL" → u "TOTAL" ∈ l.
Proof.
  destruct l as [|s [|s' r]]; cbn [Py.join].
  - intros H. vm_compute in H. discriminate.
  - intros ->. by left.
  - intros H. exfalso.
    assert (32%N ∈ u "TOTAL") as Hin.
    { rewrite <- H. apply elem_of_app. right. by left. }
    apply list_elem_of_In in Hin. vm_compute in Hin. intuition discriminate.
Qed.

Lemma window_not_total line i n phrase :
  u "TOTAL" ∉ line → SpecificCollocate.window line i n = Some phrase →
  phrase ≠ u "TOTAL".
Proof.
  intros Hline. unfold SpecificCollocate.window.
  repeat (match goal with |- context [if ?b then _ else _] => destruct b end);
    try done; intros [= <-] Heq; apply Hline;
    apply join_is_total in Heq; by eapply slice_subseteq.
Qed.

(** One visit adds one to the total of the visited word, when it is a word
    of interest, and leaves the totals of the other words as they are. *)
Lemma visit_total line words n t (iw : Z * str) w c :
  u "TOTAL" ∉ line → w ∈ words →
  (∀ x, x ∈ words → is_Some (t !! x)) → t !! w = Some c →
  ∃ t' c', SpecificCollocate.visit line words n t iw = Ok t'
           ∧ (∀ x, x ∈ words → is_Some (t' !! x))
           ∧ t' !! w = Some c'
           ∧ counter_get c' (u "TOTAL")
             = counter_get c (u "TOTAL") + (if decide (iw.2 = w) then 1 else 0).
Proof.
  intros Hline Hw Hdom Hc. destruct iw as [i word]. simpl.
  unfold SpecificCollocate.visit.
  case_bool_decide as Hin.
  2:{ exists t, c. repeat split; try done.
      rewrite decide_False; [lia|]. by intros ->. }
  destruct (Hdom word Hin) as [cw Hcw]. unfold incr_in at 1. rewrite Hcw.
  assert (∀ cw', (∀ x, x ∈ words → is_Some (<[word := cw']> t !! x))) as Hdom'.
  { intros cw' x Hx. destruct (decide (word = x)) as [->|?].
    - rewrite lookup_insert_eq. by eexists.
    - rewrite lookup_insert_ne by done. by apply Hdom. }
  destruct (SpecificCollocate.window line i n) as [phrase|] eqn:Ewin.
  - apply (window_not_total line i n phrase Hline) in Ewin.
    unfold incr_in. rewrite lookup_insert_eq, insert_insert_eq.
    destruct (decide (word = w)) as [->|Hne].
    + eexists _, _. split; [done|]. split; [apply Hdom'|].
      rewrite lookup_insert_eq. split; [done|].
      assert (cw = c) as -> by congruence.
      rewrite !counter_get_incr. unfold SpecificCollocate.TOTAL.
      repeat case_decide; try done; lia.
    + eexists _, c. split; [done|]. split; [apply Hdom'|].
      rewrite lookup_insert_ne by done. split; [done|lia].
  - destruct (decide (word = w)) as [->|Hne].
    + eexists _, _. split; [done|]. split; [apply Hdom'|].
      rewrite lookup_insert_eq. split; [done|].
      assert (cw = c) as -> by congruence.
      rewrite counter_get_incr. unfold SpecificCollocate.TOTAL.
      case_decide; [lia|done].
    + eexists _, c. split; [done|]. split; [apply Hdom'|].
      rewrite lookup_insert_ne by done. split; [done|lia].
Qed.

Lemma visits_total line words n (iws : list (Z * str)) t w c :
  u "TOTAL" ∉ line → w ∈ words →
  (∀ x, x ∈ words → is_Some (t !! x)) → t !! w = Some c →
  ∃ t' c', foldl (λ acc iw, match acc with
                            | Raise e => Raise e
                            | Ok count => SpecificCollocate.visit line words n count iw
                            end) (Ok t) iws = Ok t'
           ∧ (∀ x, x ∈ words → is_Some (t' !! x))
           ∧ t' !! w = Some c'
           ∧ counter_get c' (u "TOTAL")
             = counter_get c (u "TOTAL") + occurrences w (iws.*2).
Proof.
  intros Hline Hw. revert t c.
  induction iws as [|iw iws IH]; intros t c Hdom Hc.
  - exists t, c. repeat split; try done. unfold occurrences. simpl. lia.
  - cbn [foldl].
    destruct (visit_total line words n t iw w c Hline Hw Hdom Hc)
      as (t1 & c1 & -> & Hdom1 & Hc1 & Hget1).
    destruct (IH t1 c1 Hdom1 Hc1) as (t' & c' & E & Hdom' & Hc' & Hget').
    exists t', c'. repeat split; try done.
    rewrite Hget', Hget1. cbn [fmap list_fmap]. rewrite occurrences_cons. lia.
Qed.

Lemma process_total words n (lines : list str) t w c :
  u "TOTAL" ∉ concat (map Py.split lines) → w ∈ words →
  (∀ x, x ∈ words → is_Some (t !! x)) → t !! w = Some c →
  ∃ t' c', foldl (λ acc (ln : str), match acc with
                              | Raise e => Raise e
                              | Ok count =>
                                  SpecificCollocate.process_line count ln words n
                              end) (Ok t) lines = Ok t'
           ∧ t' !! w = Some c'
           ∧ counter_get c' (u "TOTAL")
             = counter_get c (u "TOTAL")
               + occurrences w (concat (map Py.split lines)).
Proof.
  intros Hlines Hw. revert t c Hlines.
  induction lines as [|ln lines IH]; intros t c Hlines Hdom Hc.
  - exists t, c. repeat split; try done. unfold occurrences. simpl. lia.
  - cbn [foldl map concat] in *.
    assert ((u "TOTAL" ∉ Py.split ln) ∧ (u "TOTAL" ∉ concat (map Py.split lines)))
      as [Hl Hrest].
    { split; intros ?; apply Hlines, elem_of_app; [by left|by right]. }
    unfold SpecificCollocate.process_line at 2.
    destruct (visits_total (Py.split ln) words n (enumerate (Py.split ln))
                t w c Hl Hw Hdom Hc) as (t1 & c1 & -> & Hdom1 & Hc1 & Hget1).
    destruct (IH t1 c1 Hrest Hdom1 Hc1) as (t' & c' & E & Hc' & Hget').
    exists t', c'. repeat split; try done.
    rewrite Hget', Hget1, enumerate_snd, occurrences_app. lia.
Qed.

End SpecificFacts.

(** X7. When no token of the partition is the word ['TOTAL'] itself, the
    count that [SpecificCollocate.process] keeps under ['TOTAL'] for a word
    of interest is the number of times the word occurs among the tokens of
    the partition, whatever the window size. *)
Theorem total_counts_anchor_occurrences
    (words : list str) (n : Z) (lines : list str) (w : str) :
  w ∈ words → u "TOTAL" ∉ concat (map Py.split lines) →
  ∃ t c, SpecificCollocate.process words n lines = Ok t
         ∧ t !! w = Some c
         ∧ counter_get c (u "TOTAL") = occurrences w (concat (map Py.split lines)).
Proof.
  intros Hw Hlines. unfold SpecificCollocate.process.
  assert (∀ x, x ∈ words → is_Some (empty_counts words !! x)) as Hdom.
  { intros x Hx. rewrite lookup_empty_counts, decide_True by done. by eexists. }
  assert (empty_counts words !! w = Some ∅) as Hc0
    by (by rewrite lookup_empty_counts, decide_True).
  destruct (process_total words n lines (empty_counts words) w ∅ Hlines Hw Hdom Hc0)
    as (t & c & E & Hc & Hget).
  exists t, c. split; [done|]. split; [done|].
  rewrite Hget, counter_get_empty. lia.
Qed.

Lemma total_counts_anchor_occurrences_witness :
  ∃ t c, SpecificCollocate.process [u "fox"] 1
           [u "the quick brown fox jumps high"; u "a fox"] = Ok t
         ∧ t !! u "fox" = Some c
         ∧ counter_get c (u "TOTAL")
           = occurrences (u "fox")
               (concat (map Py.split [u "the quick brown fox jumps high"; u "a fox"])).
Proof.
  apply (total_counts_anchor_occurrences [u "fox"] 1
           [u "the quick brown fox jumps high"; u "a fox"] (u "fox")).
  - by left.
  - intros H. apply list_elem_of_In in H. vm_compute in H. intuition discriminate.
Defined.

(** X8. A window that the range check of the collocate analyses lets
    through holds tokens of the line only. After the anchor it is made of
    exactly the [n] tokens that follow the anchor; before the anchor, when
    the line has [-n] tokens in front of the anchor, it is made of exactly
    these [-n] tokens. *)
Theorem counted_window_tokens
    (line : list str) (i n : Z) (phrase : str) :
  0 ≤ i →
  SpecificCollocate.window line i n = Some phrase →
  (0 < n →
   i + n < Z.of_nat (length line)
   ∧ phrase = Py.join (u " ") (take (Z.to_nat n) (drop (Z.to_nat (i + 1)) line))
   ∧ length (take (Z.to_nat n) (drop (Z.to_nat (i + 1)) line)) = Z.to_nat n)
  ∧ (n < 0 → 0 ≤ i + n →
     phrase = Py.join (u " ") (take (Z.to_nat (- n)) (drop (Z.to_nat (i + n)) line))
     ∧ length (take (Z.to_nat (- n)) (drop (Z.to_nat (i + n)) line)) = Z.to_nat (- n)).
Proof.
  intros Hi Hwin. split.
  - intros Hn. revert Hwin. unfold SpecificCollocate.window. cbv zeta.
    destruct (Z.ltb_spec n 0) as [?|_]; [lia|].
    destruct (Z.ltb_spec 0 n) as [_|?]; [|lia].
    destruct (Z.ltb_spec (i - 1) 0) as [?|Hlo]; [done|].
    destruct (Z.ltb_spec (Z.of_nat (length line) - 1) (i + (n + 1))) as [?|Hhi];
      [done|].
    intros [= <-].
    destruct (slice_in_range line (i + 1) (i + (n + 1))) as [E Hlen];
      [lia|lia|lia|].
    rewrite E in *.
    replace (i + (n + 1) - (i + 1)) with n in * by lia.
    split; [lia|]. done.
  - intros Hn Hin. revert Hwin. unfold SpecificCollocate.window. cbv zeta.
    destruct (Z.ltb_spec n 0) as [_|?]; [|lia].
    destruct (Z.ltb_spec 0 n) as [?|_]; [lia|].
    destruct (Z.ltb_spec (i - n) 0) as [?|_]; [done|].
    destruct (Z.ltb_spec (Z.of_nat (length line) - 1) (i + 0)) as [?|Hhi];
      [done|].
    intros [= <-].
    destruct (slice_in_range line (i + n) (i + 0)) as [E Hlen]; [lia|lia|lia|].
    rewrite E in *.
    replace (i + 0 - (i + n)) with (- n) in * by lia. done.
Qed.

Lemma counted_window_tokens_witness :
  (0 < 2 →
   1 + 2 < Z.of_nat (length [u "a"; u "fox"; u "runs"; u "far"; u "off"])
   ∧ u "runs far"
     = Py.join (u " ")
         (take (Z.to_nat 2)
            (drop (Z.to_nat (1 + 1)) [u "a"; u "fox"; u "runs"; u "far"; u "off"]))
   ∧ length (take (Z.to_nat 2)
               (drop (Z.to_nat (1 + 1)) [u "a"; u "fox"; u "runs"; u "far"; u "off"]))
     = Z.to_nat 2)
  ∧ (2 < 0 → 0 ≤ 1 + 2 →
     u "runs far"
     = Py.join (u " ")
         (take (Z.to_nat (- 2))
            (drop (Z.to_nat (1 + 2)) [u "a"; u "fox"; u "runs"; u "far"; u "off"]))
     ∧ length (take (Z.to_nat (- 2))
                 (drop (Z.to_nat (1 + 2)) [u "a"; u "fox"; u "runs"; u "far"; u "off"]))
       = Z.to_nat (- 2)).
Proof.
  apply (counted_window_tokens [u "a"; u "fox"; u "runs"; u "far"; u "off"]
           1 2 (u "runs far")).
  - lia.
  - vm_compute. reflexivity.
Defined.

(** ** Missing keys *)

Section KeyErrorFacts.
Implicit Types (t count master : gmap str (gmap str Z)) (c : gmap str Z).
Implicit Types (w : str) (words line : list str) (n : Z) (e : exn).

Lemma incr_in_keys t w k t' :
  incr_in t w k = Ok t' → ∀ x, t' !! x = None ↔ t !! x = None.
Proof.
  unfold incr_in. destruct (t !! w) as [c|] eqn:E; [|done].
  intros [= <-] x. destruct (decide (w = x)) as [->|Hne].
  - rewrite lookup_insert_eq, E. split; done.
  - by rewrite lookup_insert_ne.
Qed.

(** A visit raises only [KeyError], and only for a word of interest that
    is not a key of the table; otherwise it keeps the keys of the table. *)
Lemma visit_cases line words n t (iw : Z * str) :
  (iw.2 ∈ words ∧ t !! iw.2 = None
   ∧ SpecificCollocate.visit line words n t iw = Raise KeyError)
  ∨ (¬ (iw.2 ∈ words ∧ t !! iw.2 = None)
     ∧ ∃ t', SpecificCollocate.visit line words n t iw = Ok t'
             ∧ ∀ x, t' !! x = None ↔ t !! x = None).
Proof.
  destruct iw as [i word]. simpl. unfold SpecificCollocate.visit.
  case_bool_decide as Hin.
  2:{ right. split; [by intros [? _]|]. by exists t. }
  destruct (t !! word) as [c|] eqn:E.
  - right. split; [by intros [_ ?]|].
    destruct (incr_in t word SpecificCollocate.TOTAL) as [t1|e] eqn:E1.
    2:{ unfold incr_in in E1. by rewrite E in E1. }
    pose proof (incr_in_keys _ _ _ _ E1) as Hk1.
    destruct (SpecificCollocate.window line i n) as [phrase|]; [|by exists t1].
    destruct (incr_in t1 word phrase) as [t2|e] eqn:E2.
    + exists t2. split; [done|]. intros x.
      rewrite (incr_in_keys _ _ _ _ E2 x). apply Hk1.
    + unfold incr_in in E2. destruct (t1 !! word) eqn:E3; [done|].
      apply Hk1 in E3. congruence.
  - left. unfold incr_in. by rewrite E.
Qed.

Lemma visits_raise line words n (iws : list (Z * str)) t e :
  foldl (λ acc iw, match acc with
                   | Raise e => Raise e
                   | Ok count => SpecificCollocate.visit line words n count iw
                   end) (Ok t) iws = Raise e
  ↔ e = KeyError ∧ ∃ w, w ∈ iws.*2 ∧ w ∈ words ∧ t !! w = None.
Proof.
  revert t. induction iws as [|iw iws IH]; intros t.
  - simpl. split; [done|]. intros [_ (w & Hw & _)]. by apply elem_of_nil in Hw.
  - cbn [foldl fmap list_fmap].
    destruct (visit_cases line words n t iw) as [(Hin & Hnone & ->)|(Hnot & t1 & -> & Hk)].
    + rewrite foldl_raise. split.
      * intros [= <-]. split; [done|]. exists iw.2. split; [by left|done].
      * by intros [-> _].
    + rewrite IH. split.
      * intros [-> (w & Hw & Hwords & Hnone)]. split; [done|].
        exists w. split; [by right|]. split; [done|]. by apply Hk.
      * intros [-> (w & Hw & Hwords & Hnone)]. split; [done|].
        apply elem_of_cons in Hw as [->|Hw]; [by destruct Hnot|].
        exists w. split; [done|]. split; [done|]. by apply Hk.
Qed.

Lemma merge_into_raise_fold master count (m0 : gmap str (gmap str Z)) :
  let r := map_fold (λ word c acc,
                       match acc with
                       | Raise e => Raise e
                       | Ok m =>
                           match count !! word with
                           | Some cw => Ok (<[word := counter_iadd c cw]> m)
                           | None => Raise KeyError
                           end
                       end) (Ok master) m0 in
  (∀ e, r = Raise e → e = KeyError ∧ ∃ w, is_Some (m0 !! w) ∧ count !! w = None)
  ∧ ((∃ w, is_Some (m0 !! w) ∧ count !! w = None) → r = Raise KeyError).
Proof.
  cbv zeta. revert m0.
  apply (map_fold_weak_ind
           (λ (r : result (gmap str (gmap str Z))) (m : gmap str (gmap str Z)),
              (∀ e, r = Raise e →
                    e = KeyError ∧ ∃ w, is_Some (m !! w) ∧ count !! w = None)
              ∧ ((∃ w, is_Some (m !! w) ∧ count !! w = None) → r = Raise KeyError))).
  - split; [done|]. intros (w & Hw & _). rewrite lookup_empty in Hw. by destruct Hw.
  - intros i x m r Hi [IH1 IH2]. destruct r as [mm|e0].
    + destruct (count !! i) as [cw|] eqn:Ei.
      * split; [done|]. intros (w & Hw & Hnone).
        destruct (decide (i = w)) as [->|Hne]; [congruence|].
        rewrite lookup_insert_ne in Hw by done.
        assert (Ok mm = Raise KeyError) by (apply IH2; eauto). done.
      * split; [|done]. intros e [= <-]. split; [done|].
        exists i. by rewrite lookup_insert_eq.
    + destruct (IH1 e0 eq_refl) as [-> (w & Hw & Hnone)].
      split; [|done]. intros e [= <-]. split; [done|].
      exists w. split; [|done].
      destruct (decide (i = w)) as [->|Hne].
      * rewrite lookup_insert_eq. by eexists.
      * by rewrite lookup_insert_ne.
Qed.

End KeyErrorFacts.

(** X9. [SpecificCollocate.process_line] raises exactly when a word of
    interest that occurs in the line is not a key of the count table, and
    the exception is then [KeyError]; no other exception escapes it. *)
Theorem process_line_raises_on_missing_word
    (count : gmap str (gmap str Z)) (line : str) (words : list str) (n : Z)
    (e : exn) :
  SpecificCollocate.process_line count line words n = Raise e
  ↔ e = KeyError ∧ ∃ w, w ∈ Py.split line ∧ w ∈ words ∧ count !! w = None.
Proof.
  unfold SpecificCollocate.process_line. cbv zeta.
  rewrite visits_raise. by rewrite enumerate_snd.
Qed.

(** X10. One merge step [master_count[word] += count[word]] over the keys
    of the master table raises exactly when a key of the master table is
    missing from the partial table, and the exception is then [KeyError]. *)
Theorem merge_raises_on_missing_key
    (master count : gmap str (gmap str Z)) (e : exn) :
  merge_into master count = Raise e
  ↔ e = KeyError ∧ ∃ w, is_Some (master !! w) ∧ count !! w = None.
Proof.
  destruct (merge_into_raise_fold master count master) as [H1 H2].
  split.
  - apply H1.
  - intros [-> Hw]. by apply H2.
Qed.

(** ** Ingestion: chunks and partition slots *)

Section ChunkCountFacts.
Import AnalyserTemplate.
Implicit Types (file : list byte) (c p fs : Z) (pos fuel : nat) (overlap rest : str).

(** Every window yields at most one chunk. *)
Lemma generate_loop_count fuel file fs c p pos overlap :
  0 < c → p ≤ fs + c →
  Z.of_nat (length (generate_loop fuel file fs c p pos overlap).1) * c ≤ fs - p + c.
Proof.
  intros Hc. revert p pos overlap.
  induction fuel as [|fuel IH]; intros p pos overlap Hp; [simpl; lia|].
  cbn [generate_loop].
  destruct (Z.leb_spec p fs) as [Hle|Hgt]; [|simpl; lia].
  destruct (read file pos _) as [[data pos']|].
  2:{ specialize (IH (p + c) pos overlap). lia. }
  destruct (window_step overlap data) as [| |chunk overlap'].
  - specialize (IH (p + c) pos' overlap). lia.
  - simpl. lia.
  - specialize (IH (p + c) pos' overlap').
    destruct (generate_loop fuel file fs c (p + c) pos' overlap') as [chunks e].
    simpl in *. lia.
Qed.

(** The generator raises nothing but the [ValueError] of the unpacking. *)
Lemma generate_loop_raises fuel file fs c p pos overlap err :
  (generate_loop fuel file fs c p pos overlap).2 = Raised err → err = ValueError.
Proof.
  revert p pos overlap.
  induction fuel as [|fuel IH]; intros p pos overlap; [done|].
  cbn [generate_loop].
  destruct (p <=? fs); [|done].
  destruct (read file pos _) as [[data pos']|]; [|apply IH].
  destruct (window_step overlap data) as [| |chunk overlap'].
  - apply IH.
  - by intros [= <-].
  - specialize (IH (p + c) pos' overlap').
    by destruct (generate_loop fuel file fs c (p + c) pos' overlap').
Qed.

(** The overlap left at the end of the loop holds no line feed. *)
Lemma generate_loop_rest fuel file fs c p pos overlap rest :
  10%N ∉ overlap →
  (generate_loop fuel file fs c p pos overlap).2 = Exhausted rest → 10%N ∉ rest.
Proof.
  revert p pos overlap.
  induction fuel as [|fuel IH]; intros p pos overlap Hnl; [done|].
  cbn [generate_loop].
  destruct (p <=? fs); [|by intros [= <-]].
  destruct (read file pos _) as [[data pos']|]; [|by apply IH].
  destruct (window_step overlap data) as [| |chunk overlap'] eqn:E.
  - by apply IH.
  - done.
  - specialize (IH (p + c) pos' overlap').
    destruct (generate_loop fuel file fs c (p + c) pos' overlap').
    simpl. apply IH. by eapply window_step_overlap.
Qed.

End ChunkCountFacts.

(** X11. With a positive chunk size the generator yields at most one chunk
    per window of the file: no more than [file_size / chunk_size + 1] chunks,
    whatever the content of the file. *)
Theorem chunk_count_bound (file : list byte) (c : Z) :
  0 < c →
  Z.of_nat (length (AnalyserTemplate.generate_chunk file c).1)
  ≤ Z.of_nat (length file) / c + 1.
Proof.
  intros Hc.
  pose proof (generate_loop_count (length file + 2) file (Z.of_nat (length file))
                c 0 0%nat [] Hc) as H.
  unfold AnalyserTemplate.generate_chunk.
  set (k := Z.of_nat (length (AnalyserTemplate.generate_loop _ _ _ _ _ _ _).1)) in *.
  assert (k - 1 ≤ Z.of_nat (length file) / c); [|lia].
  apply Z.div_le_lower_bound; [done|]. lia.
Qed.

Lemma chunk_count_bound_witness :
  Z.of_nat (length (AnalyserTemplate.generate_chunk Samples.two_lines 3).1)
  ≤ Z.of_nat (length Samples.two_lines) / 3 + 1.
Proof. apply (chunk_count_bound Samples.two_lines 3). lia. Defined.

(** X12. On a file of ASCII bytes read with a positive chunk size, a run of
    the generator that reaches the end of its loop has cut the text at line
    feeds only and lost nothing but what it keeps: the chunks, each followed
    by a line feed, and then the overlap left in the generator make up the
    whole text of the file, and that overlap holds no line feed. *)
Theorem chunks_and_overlap_are_the_text
    (file : list byte) (c : Z) (chunks : list str) (rest : str) :
  0 < c →
  Forall (λ x : byte, (Byte.to_N x < 128)%N) file →
  AnalyserTemplate.generate_chunk file c = (chunks, AnalyserTemplate.Exhausted rest) →
  concat (map (λ chunk, chunk ++ [10%N]) chunks) ++ rest = map Byte.to_N file
  ∧ 10%N ∉ rest.
Proof.
  intros Hc Hascii Hgen. split.
  - by apply (generate_chunk_content file c).
  - apply (generate_loop_rest (length file + 2) file (Z.of_nat (length file))
             c 0 0%nat []); [apply not_elem_of_nil|].
    unfold AnalyserTemplate.generate_chunk in Hgen. by rewrite Hgen.
Qed.

Lemma chunks_and_overlap_are_the_text_witness :
  concat (map (λ chunk, chunk ++ [10%N]) [u "a"]) ++ u "b"
  = map Byte.to_N Samples.open_end
  ∧ 10%N ∉ u "b".
Proof.
  apply (chunks_and_overlap_are_the_text Samples.open_end 10 [u "a"] (u "b")).
  - lia.
  - repeat (constructor; [reflexivity|]). constructor.
  - vm_compute. reflexivity.
Defined.

Section SlotFacts.
Import AnalyserTemplate.
Variable lower : str → str.
Variable NORM_TABLE PUNC_TABLE : N → option str.
Variable lstrip rstrip : Z.

Local Abbreviation normalized_block :=
  (normalized_block lower NORM_TABLE PUNC_TABLE lstrip rstrip).
Local Abbreviation pre_process_chunk :=
  (pre_process_chunk lower NORM_TABLE PUNC_TABLE lstrip rstrip).
Local Abbreviation write_chunks :=
  (write_chunks lower NORM_TABLE PUNC_TABLE lstrip rstrip).

(** In an existing directory the worker does not raise, and every file that
    was there is there afterwards, with its content. *)
Lemma pre_process_chunk_keeps (w : world) (chunk : str) (files : gmap Z str) :
  dir w = Some files →
  ∃ w' files', pre_process_chunk w chunk = Ok w' ∧ dir w' = Some files'
               ∧ ∀ j x, files !! j = Some x → files' !! j = Some x.
Proof.
  intros Hdir. unfold AnalyserTemplate.pre_process_chunk. rewrite Hdir.
  destruct (first_free_slot files) as [i|] eqn:E.
  - apply first_free_slot_Some in E as (_ & Hfree & _).
    eexists _, _. split; [done|]. split; [done|]. intros j x Hj.
    rewrite lookup_insert_ne; [done|]. intros ->. congruence.
  - by exists w, files.
Qed.

Lemma write_chunks_keeps (chunks : list str) (w : world) (files : gmap Z str) :
  dir w = Some files →
  ∃ w' files', write_chunks w chunks = (w', Returns) ∧ dir w' = Some files'
               ∧ ∀ j x, files !! j = Some x → files' !! j = Some x.
Proof.
  revert w files. induction chunks as [|chunk chunks IH]; intros w files Hdir.
  - by exists w, files.
  - cbn [AnalyserTemplate.write_chunks].
    destruct (pre_process_chunk_keeps w chunk files Hdir)
      as (w1 & files1 & -> & Hdir1 & Hkeep1).
    destruct (IH w1 files1 Hdir1) as (w' & files' & -> & Hdir' & Hkeep').
    exists w', files'. split; [done|]. split; [done|]. eauto.
Qed.

End SlotFacts.

(** X13. In an existing destination directory the consumption of the chunks
    never raises, and it never removes or changes a partition file that was
    there: every slot that held a file holds the same content afterwards. *)
Theorem partitions_are_never_overwritten
    (lower : str → str) (NORM_TABLE PUNC_TABLE : N → option str) (lstrip rstrip : Z)
    (w : AnalyserTemplate.world) (chunks : list str)
    (files : gmap Z str) (j : Z) (x : str) :
  AnalyserTemplate.dir w = Some files → files !! j = Some x →
  ∃ w' files',
    AnalyserTemplate.write_chunks lower NORM_TABLE PUNC_TABLE lstrip rstrip w chunks
    = (w', Returns)
    ∧ AnalyserTemplate.dir w' = Some files' ∧ files' !! j = Some x.
Proof.
  intros Hdir Hj.
  destruct (write_chunks_keeps lower NORM_TABLE PUNC_TABLE lstrip rstrip
              chunks w files Hdir) as (w' & files' & E & Hdir' & Hkeep).
  exists w', files'. eauto.
Qed.

Lemma partitions_are_never_overwritten_witness :
  ∃ w' files',
    AnalyserTemplate.write_chunks id Samples.keep Samples.keep 0 0
      (AnalyserTemplate.World (Some Samples.one_partition) []) [u "a b"; u "c"]
    = (w', Returns)
    ∧ AnalyserTemplate.dir w' = Some files' ∧ files' !! 0 = Some (u "x").
Proof.
  apply (partitions_are_never_overwritten id Samples.keep Samples.keep 0 0
           (AnalyserTemplate.World (Some Samples.one_partition) [])
           [u "a b"; u "c"] Samples.one_partition 0 (u "x")).
  - reflexivity.
  - reflexivity.
Defined.

(** X14. Calls of [pre_process_chunk] that run one after the other, as a
    single worker process makes them, keep the order of the chunks: from a
    directory whose taken slots are the first [k] ones, and with room for
    all the chunks below slot 1000, chunk [i] is stored, normalized, in
    slot [k + i], no call raises, and nothing else changes. *)
Theorem successive_calls_fill_successive_slots
    (lower : str → str) (NORM_TABLE PUNC_TABLE : N → option str) (lstrip rstrip : Z)
    (w : AnalyserTemplate.world) (files : gmap Z str) (k : Z) (chunks : list str) :
  AnalyserTemplate.dir w = Some files → 0 ≤ k →
  (∀ j, is_Some (files !! j) ↔ 0 ≤ j < k) →
  k + Z.of_nat (length chunks) ≤ 1000 →
  ∃ w' files',
    foldl (λ r chunk,
             match r with
             | Ok w1 =>
                 AnalyserTemplate.pre_process_chunk
                   lower NORM_TABLE PUNC_TABLE lstrip rstrip w1 chunk
             | Raise e => Raise e
             end) (Ok w) chunks = Ok w'
    ∧ AnalyserTemplate.dir w' = Some files'
    ∧ ∀ j, files' !! j
           = if decide (j < k) then files !! j
             else AnalyserTemplate.normalized_block
                    lower NORM_TABLE PUNC_TABLE lstrip rstrip
                  <$> chunks !! Z.to_nat (j - k).
Proof.
  revert w files k.
  induction chunks as [|chunk chunks IH]; intros w files k Hdir Hk0 Hk Hlen.
  - exists w, files. split; [done|]. split; [done|]. intros j.
    case_decide as Hj; [done|]. simpl.
    destruct (files !! j) eqn:E; [|done].
    assert (0 ≤ j < k) by (apply Hk; by eexists). lia.
  - cbn [foldl length] in *.
    set (block := AnalyserTemplate.normalized_block
                    lower NORM_TABLE PUNC_TABLE lstrip rstrip chunk).
    assert (AnalyserTemplate.pre_process_chunk
              lower NORM_TABLE PUNC_TABLE lstrip rstrip w chunk
            = Ok (AnalyserTemplate.World (Some (<[k := block]> files))
                    (AnalyserTemplate.trace w
                     ++ [AnalyserTemplate.Write_partition k block])))
      as ->.
    { unfold AnalyserTemplate.pre_process_chunk. rewrite Hdir.
      assert (AnalyserTemplate.first_free_slot files = Some k) as ->; [|done].
      apply first_free_slot_Some. split; [lia|]. split.
      - destruct (files !! k) eqn:E; [|done].
        assert (0 ≤ k < k) by (apply Hk; by eexists). lia.
      - intros j Hj. by apply Hk. }
    destruct (IH (AnalyserTemplate.World (Some (<[k := block]> files))
                    (AnalyserTemplate.trace w
                     ++ [AnalyserTemplate.Write_partition k block]))
                (<[k := block]> files) (k + 1))
      as (w' & files' & -> & Hdir' & Hget); [done|lia| |lia|].
    { intros j. destruct (decide (k = j)) as [<-|Hne].
      - rewrite lookup_insert_eq. split; [lia|by eexists].
      - rewrite lookup_insert_ne by done. rewrite Hk. lia. }
    exists w', files'. split; [done|]. split; [done|]. intros j. rewrite Hget.
    destruct (decide (j < k)) as [Hlt|Hge].
    + rewrite decide_True by lia. by rewrite lookup_insert_ne by lia.
    + destruct (decide (j = k)) as [->|Hne].
      * rewrite decide_True by lia. rewrite lookup_insert_eq.
        by replace (k - k) with 0 by lia.
      * rewrite decide_False by lia.
        replace (Z.to_nat (j - k)) with (S (Z.to_nat (j - (k + 1)))) by lia.
        done.
Qed.

Lemma successive_calls_fill_successive_slots_witness :
  ∃ w' files',
    foldl (λ r chunk,
             match r with
             | Ok w1 =>
                 AnalyserTemplate.pre_process_chunk
                   id Samples.keep Samples.keep 0 0 w1 chunk
             | Raise e => Raise e
             end)
      (Ok (AnalyserTemplate.World (Some Samples.one_partition) []))
      [u "a fox"; u "runs far"] = Ok w'
    ∧ AnalyserTemplate.dir w' = Some files'
    ∧ ∀ j, files' !! j
           = if decide (j < 1) then Samples.one_partition !! j
             else AnalyserTemplate.normalized_block id Samples.keep Samples.keep 0 0
                  <$> [u "a fox"; u "runs far"] !! Z.to_nat (j - 1).
Proof.
  apply (successive_calls_fill_successive_slots id Samples.keep Samples.keep 0 0
           (AnalyserTemplate.World (Some Samples.one_partition) [])
           Samples.one_partition 1 [u "a fox"; u "runs far"]).
  - reflexivity.
  - lia.
  - intros j. unfold Samples.one_partition.
    destruct (decide (j = 0)) as [->|Hne].
    + rewrite lookup_insert_eq. split; [lia|by eexists].
    + rewrite lookup_insert_ne, lookup_empty by done.
      split; [by intros []|lia].
  - simpl. lia.
Defined.

(** ** Normalized lines and blocks *)

Section SplitFacts.
Implicit Types (s t cur ws : str) (toks : list str).

Lemma split_from_tokens cur s :
  Forall (λ c, Py.is_space c = false) cur → Forall is_token (Py.split_from cur s).
Proof.
  revert cur. induction s as [|c s IH]; intros cur Hcur; simpl.
  - destruct cur as [|c0 cur0] eqn:E; [constructor|]. rewrite <- E in *.
    constructor; [|constructor]. split.
    + subst cur. simpl. intros H. by apply app_eq_nil in H as [_ ?].
    + apply Forall_forall. intros x Hx%list_elem_of_In%in_rev%list_elem_of_In.
      rewrite Forall_forall in Hcur. by apply Hcur.
  - destruct (Py.is_space c) eqn:Ec.
    + destruct cur as [|c0 cur0] eqn:E; [apply IH; constructor|]. rewrite <- E in *.
      constructor; [|apply IH; constructor]. split.
      * subst cur. simpl. intros H. by apply app_eq_nil in H as [_ ?].
      * apply Forall_forall. intros x Hx%list_elem_of_In%in_rev%list_elem_of_In.
        rewrite Forall_forall in Hcur. by apply Hcur.
    + apply IH. by constructor.
Qed.

(** [split] returns tokens. *)
Lemma split_tokens s : Forall is_token (Py.split s).
Proof. apply split_from_tokens. constructor. Qed.

Lemma split_from_nonspace t cur s :
  Forall (λ c, Py.is_space c = false) t →
  Py.split_from cur (t ++ s) = Py.split_from (rev t ++ cur) s.
Proof.
  intros Ht. revert cur. induction Ht as [|c t Hc _ IH]; intros cur; [done|].
  simpl. rewrite Hc, IH. by rewrite <- app_assoc.
Qed.

Lemma split_from_spaces cur ws :
  Forall (λ c, Py.is_space c = true) ws →
  Py.split_from cur ws = match cur with [] => [] | _ => [rev cur] end.
Proof.
  intros Hws. revert cur. induction Hws as [|c ws Hc _ IH]; intros cur; [done|].
  simpl. rewrite Hc. destruct cur; rewrite IH; done.
Qed.

(** Splitting the tokens joined by single spaces gives the tokens back,
    also when white space follows. *)
Lemma split_join toks ws :
  Forall is_token toks → Forall (λ c, Py.is_space c = true) ws →
  Py.split (Py.join (u " ") toks ++ ws) = toks.
Proof.
  intros Htoks Hws. unfold Py.split.
  induction Htoks as [|t toks [Hne Ht] Htoks IH].
  - simpl. by rewrite split_from_spaces.
  - destruct toks as [|t' toks'].
    + cbn [Py.join]. rewrite split_from_nonspace by done.
      rewrite split_from_spaces by done. rewrite app_nil_r.
      destruct (rev t) eqn:E.
      * apply (f_equal (@rev N)) in E. rewrite rev_involutive in E. done.
      * by rewrite <- E, rev_involutive.
    + change (Py.join (u " ") (t :: t' :: toks'))
        with (t ++ u " " ++ Py.join (u " ") (t' :: toks')).
      rewrite <- !app_assoc. rewrite split_from_nonspace by done.
      rewrite app_nil_r. change (u " ") with [32%N]. cbn [app Py.split_from].
      change (Py.is_space 32) with true. cbv iota.
      destruct (rev t) eqn:E.
      * apply (f_equal (@rev N)) in E. rewrite rev_involutive in E. done.
      * rewrite <- E, rev_involutive. f_equal. apply IH.
Qed.

Lemma is_linebreak_space (c : N) : Py.is_linebreak c = true → Py.is_space c = true.
Proof.
  unfold Py.is_linebreak, Py.is_space. intros H.
  repeat (apply orb_true_iff in H as [H|H]);
    try (apply andb_true_iff in H as [H1 H2]);
    repeat match goal with
           | H : (_ <=? _)%N = true |- _ => apply N.leb_le in H
           | H : (_ =? _)%N = true |- _ => apply N.eqb_eq in H
           end;
    repeat match goal with
           | |- context [(?a <=? ?b)%N] => destruct (N.leb_spec a b)
           | |- context [(?a =? ?b)%N] => destruct (N.eqb_spec a b)
           end; simpl; try done; lia.
Qed.

Lemma join_no_linebreak toks :
  Forall is_token toks →
  Forall (λ c, Py.is_linebreak c = false) (Py.join (u " ") toks).
Proof.
  assert (∀ t, is_token t → Forall (λ c, Py.is_linebreak c = false) t) as Htok.
  { intros t [_ Ht]. eapply Forall_impl; [exact Ht|]. intros c Hc. simpl in *.
    destruct (Py.is_linebreak c) eqn:E; [|done].
    apply is_linebreak_space in E. congruence. }
  induction 1 as [|t toks Ht Htoks IH]; [constructor|].
  destruct toks as [|t' toks']; [by apply Htok|].
  change (Py.join (u " ") (t :: t' :: toks'))
    with (t ++ [32%N] ++ Py.join (u " ") (t' :: toks')).
  apply Forall_app. split; [by apply Htok|]. apply Forall_app. split; [|done].
  by repeat constructor.
Qed.

Lemma splitlines_from_line cur s rest :
  Forall (λ c, Py.is_linebreak c = false) s →
  Py.splitlines_from cur (s ++ 10%N :: rest)
  = (rev cur ++ s) :: Py.splitlines_from [] rest.
Proof.
  intros Hs. revert cur. induction Hs as [|c s Hc _ IH]; intros cur.
  - cbn [app Py.splitlines_from]. change (Py.is_linebreak 10) with true. cbv iota.
    rewrite app_nil_r. f_equal. by destruct rest.
  - cbn [app Py.splitlines_from]. rewrite Hc, IH. simpl.
    by rewrite <- app_assoc.
Qed.

Lemma splitlines_terminated (xs : list str) :
  Forall (Forall (λ c, Py.is_linebreak c = false)) xs →
  Py.splitlines (concat (map (λ x, x ++ [10%N]) xs)) = xs.
Proof.
  unfold Py.splitlines. induction 1 as [|x xs Hx _ IH]; [done|].
  cbn [map concat]. rewrite <- app_assoc. cbn [app].
  rewrite splitlines_from_line by done. simpl. by rewrite IH.
Qed.

Lemma foldl_append {B} (f : B → str) (l : list B) (acc : str) :
  foldl (λ text x, text ++ f x ++ [10%N]) acc l
  = acc ++ concat (map (λ x, f x ++ [10%N]) l).
Proof.
  revert acc. induction l as [|x l IH]; intros acc; simpl.
  - by rewrite app_nil_r.
  - rewrite IH. by rewrite <- !app_assoc.
Qed.

Lemma slice_tokens toks (a b : Z) :
  Forall is_token toks → Forall is_token (Py.slice toks a b).
Proof.
  intros H. unfold Py.slice. by apply Forall_take, Forall_drop.
Qed.

End SplitFacts.

Section NormalizeFacts.
Import AnalyserTemplate.
Variable lower : str → str.
Variable NORM_TABLE PUNC_TABLE : N → option str.
Variable lstrip rstrip : Z.

Local Abbreviation pre_process_line :=
  (pre_process_line lower NORM_TABLE PUNC_TABLE lstrip rstrip).
Local Abbreviation normalized_block :=
  (normalized_block lower NORM_TABLE PUNC_TABLE lstrip rstrip).

(** A normalized line is a list of tokens joined by single spaces. *)
Lemma pre_process_line_tokens (line : str) :
  ∃ toks, Forall is_token toks ∧ pre_process_line line = Py.join (u " ") toks.
Proof.
  unfold AnalyserTemplate.pre_process_line. cbv zeta.
  eexists. split; [|reflexivity].
  destruct (rstrip =? 0); repeat apply slice_tokens; apply split_tokens.
Qed.

End NormalizeFacts.

(** X15. A line returned by [pre_process_line] is in the form in which the
    analyses read it back: whatever the tables and the strip counts,
    splitting it on white space and joining the tokens with single spaces
    gives the line again, the line feed that [pre_process_chunk] appends
    does not change its tokens, and it holds no line-break character. *)
Theorem normalized_line_is_canonical
    (lower : str → str) (NORM_TABLE PUNC_TABLE : N → option str) (lstrip rstrip : Z)
    (line : str) :
  let out := AnalyserTemplate.pre_process_line
               lower NORM_TABLE PUNC_TABLE lstrip rstrip line in
  Py.join (u " ") (Py.split out) = out
  ∧ Py.split (out ++ [10%N]) = Py.split out
  ∧ Forall (λ c, Py.is_linebreak c = false) out.
Proof.
  cbv zeta.
  destruct (pre_process_line_tokens lower NORM_TABLE PUNC_TABLE lstrip rstrip line)
    as (toks & Htoks & ->).
  assert (Py.split (Py.join (u " ") toks) = toks) as E.
  { rewrite <- (app_nil_r (Py.join (u " ") toks)). by apply split_join. }
  rewrite E. split; [done|]. split.
  - apply split_join; [done|]. by repeat constructor.
  - by apply join_no_linebreak.
Qed.

(** X16. The block that [pre_process_chunk] writes has one line per line of
    the chunk: split at line boundaries it gives exactly the normalized
    lines of the chunk, in order. *)
Theorem normalized_block_lines
    (lower : str → str) (NORM_TABLE PUNC_TABLE : N → option str) (lstrip rstrip : Z)
    (chunk : str) :
  Py.splitlines
    (AnalyserTemplate.normalized_block lower NORM_TABLE PUNC_TABLE lstrip rstrip chunk)
  = map (AnalyserTemplate.pre_process_line lower NORM_TABLE PUNC_TABLE lstrip rstrip)
        (Py.splitlines chunk).
Proof.
  unfold AnalyserTemplate.normalized_block.
  rewrite (foldl_append
             (AnalyserTemplate.pre_process_line
                lower NORM_TABLE PUNC_TABLE lstrip rstrip)).
  cbn [app]. rewrite <- (map_map _ (λ x, x ++ [10%N])).
  apply splitlines_terminated.
  apply Forall_forall. intros x [line [-> _]]%list_elem_of_fmap.
  destruct (pre_process_line_tokens lower NORM_TABLE PUNC_TABLE lstrip rstrip line)
    as (toks & Htoks & ->).
  by apply join_no_linebreak.
Qed.

(** ** General collocates: what every anchor adds *)

Section GeneralFacts.
Implicit Types (t count : gmap str (gmap str Z)) (c : gmap str Z).
Implicit Types (w word : str) (words line : list str) (i n : Z).

Lemma enumerate_bounds {A} (l : list A) :
  Forall (λ iw : Z * A, 0 ≤ iw.1 < Z.of_nat (length l)) (enumerate l).
Proof.
  unfold enumerate. apply Forall_forall. intros [i x] Hin.
  apply elem_of_zip_l in Hin. simpl. unfold Py.range in Hin.
  apply list_elem_of_fmap in Hin as (k & -> & Hk).
  apply elem_of_seq in Hk. lia.
Qed.

(** A window before an anchor of the line always passes the range check. *)
Lemma general_window_backward line i n :
  0 ≤ i < Z.of_nat (length line) → n < 0 →
  is_Some (GeneralCollocateAnalysis.window line i n).
Proof.
  intros Hi Hn. unfold GeneralCollocateAnalysis.window. cbv zeta.
  destruct (Z.ltb_spec n 0); [|lia]. destruct (Z.ltb_spec 0 n); [lia|].
  destruct (Z.ltb_spec (i - n) 0); [lia|].
  destruct (Z.ltb_spec (Z.of_nat (length line) - 1) (i + 0)); [lia|]. by eexists.
Qed.

(** The loop over the offsets, for a word that is a key of the table: one
    count per window that passes the check. *)
Lemma offsets_total line i word (ns : list Z) t c :
  t !! word = Some c →
  ∃ t' c',
    foldl (λ acc n,
             match acc with
             | Raise e => Raise e
             | Ok count =>
                 match GeneralCollocateAnalysis.window line i n with
                 | Some phrase => incr_in count word phrase
                 | None => Ok count
                 end
             end) (Ok t) ns = Ok t'
    ∧ t' !! word = Some c'
    ∧ (∀ x, x ≠ word → t' !! x = t !! x)
    ∧ total_count c'
      = total_count c
        + Z.of_nat (length (filter (λ n, is_Some (GeneralCollocateAnalysis.window line i n))
                              ns)).
Proof.
  revert t c. induction ns as [|n ns IH]; intros t c Hc.
  - exists t, c. split; [done|]. split; [done|]. split; [done|]. simpl. lia.
  - cbn [foldl]. destruct (GeneralCollocateAnalysis.window line i n) as [phrase|] eqn:E.
    + assert (incr_in t word phrase = Ok (<[word := counter_incr c phrase]> t)) as ->
        by (unfold incr_in; by rewrite Hc).
      destruct (IH (<[word := counter_incr c phrase]> t) (counter_incr c phrase))
        as (t' & c' & Hf & Hc' & Hoth & Htot).
      { by rewrite lookup_insert_eq. }
      exists t', c'. split; [exact Hf|]. split; [done|]. split.
      * intros x Hx. rewrite Hoth by done. by rewrite lookup_insert_ne.
      * rewrite Htot, total_count_incr.
        rewrite filter_cons_True by (rewrite E; by eexists). simpl. lia.
    + destruct (IH t c Hc) as (t' & c' & Hf & Hc' & Hoth & Htot).
      exists t', c'. split; [exact Hf|]. split; [done|]. split; [done|].
      rewrite Htot. rewrite filter_cons_False; [done|].
      rewrite E. by intros [? ?].
Qed.

(** A visit of a token of the line raises only [KeyError], and only for a
    word of interest that is not a key of the table; otherwise it keeps the
    keys, and adds two to four counts to the row of a word of interest. *)
Lemma general_visit_cases line words t (iw : Z * str) :
  0 ≤ iw.1 < Z.of_nat (length line) →
  (iw.2 ∈ words ∧ t !! iw.2 = None
   ∧ GeneralCollocateAnalysis.visit line words t iw = Raise KeyError)
  ∨ (¬ (iw.2 ∈ words ∧ t !! iw.2 = None)
     ∧ ∃ t', GeneralCollocateAnalysis.visit line words t iw = Ok t'
             ∧ (∀ x, t' !! x = None ↔ t !! x = None)
             ∧ ∀ w c, w ∈ words → t !! w = Some c →
                 ∃ c' d, t' !! w = Some c'
                         ∧ total_count c' = total_count c + d
                         ∧ if decide (iw.2 = w) then 2 ≤ d ≤ 4 else d = 0).
Proof.
  destruct iw as [i word]. simpl. intros Hi.
  unfold GeneralCollocateAnalysis.visit.
  case_bool_decide as Hin.
  2:{ right. split; [by intros [? _]|]. exists t. split; [done|]. split; [done|].
      intros w c Hw Hc. exists c, 0. split; [done|]. split; [lia|].
      case_decide; [by subst|done]. }
  destruct (t !! word) as [c0|] eqn:E.
  - right. split; [by intros [_ ?]|].
    destruct (offsets_total line i word [-2; -1; 1; 2] t c0 E)
      as (t' & c' & Hf & Hc' & Hoth & Htot).
    exists t'. split; [exact Hf|]. split.
    { intros x. destruct (decide (x = word)) as [->|Hne].
      - rewrite Hc', E. done.
      - by rewrite Hoth. }
    intros w c Hw Hc. destruct (decide (word = w)) as [->|Hne].
    + assert (c = c0) as -> by congruence.
      eexists c', _. split; [done|]. split; [exact Htot|].
      rewrite filter_cons_True by (apply general_window_backward; [done|lia]).
      rewrite filter_cons_True by (apply general_window_backward; [done|lia]).
      pose proof (length_filter
                    (λ n, is_Some (GeneralCollocateAnalysis.window line i n)) [1; 2]).
      simpl in *. lia.
    + exists c, 0. split; [by rewrite Hoth|]. split; [lia|done].
  - left. split; [done|]. split; [done|]. cbn [foldl].
    destruct (general_window_backward line i (-2)) as [phrase Hp]; [done|lia|].
    rewrite Hp.
    assert (incr_in t word phrase = Raise KeyError) as ->
      by (unfold incr_in; by rewrite E).
    done.
Qed.

Lemma general_visits line words (iws : list (Z * str)) t :
  Forall (λ iw : Z * str, 0 ≤ iw.1 < Z.of_nat (length line)) iws →
  ((∃ w, w ∈ iws.*2 ∧ w ∈ words ∧ t !! w = None)
   ∧ foldl (λ acc iw, match acc with
                      | Raise e => Raise e
                      | Ok count => GeneralCollocateAnalysis.visit line words count iw
                      end) (Ok t) iws = Raise KeyError)
  ∨ (¬ (∃ w, w ∈ iws.*2 ∧ w ∈ words ∧ t !! w = None)
     ∧ ∃ t', foldl (λ acc iw, match acc with
                              | Raise e => Raise e
                              | Ok count =>
                                  GeneralCollocateAnalysis.visit line words count iw
                              end) (Ok t) iws = Ok t'
             ∧ (∀ x, t' !! x = None ↔ t !! x = None)
             ∧ ∀ w c, w ∈ words → t !! w = Some c →
                 ∃ c', t' !! w = Some c'
                       ∧ 2 * occurrences w (iws.*2) ≤ total_count c' - total_count c
                         ≤ 4 * occurrences w (iws.*2)).
Proof.
  intros H. revert t. induction H as [|iw iws Hiw _ IH]; intros t.
  - right. split; [intros (w & Hw & _); by apply elem_of_nil in Hw|].
    exists t. split; [done|]. split; [done|]. intros w c _ Hc.
    exists c. split; [done|]. unfold occurrences. simpl. lia.
  - cbn [foldl fmap list_fmap].
    destruct (general_visit_cases line words t iw Hiw)
      as [(Hin & Hnone & ->)|(Hnot & t1 & -> & Hk & Htot)].
    + left. split; [|apply foldl_raise].
      exists iw.2. split; [by left|done].
    + destruct (IH t1) as [[(w & Hw & Hwords & Hnone) ->]|(Hnot' & t' & -> & Hk' & Htot')].
      * left. split; [|done]. exists w. split; [by right|]. split; [done|]. by apply Hk.
      * right. split.
        { intros (w & Hw & Hwords & Hnone).
          apply elem_of_cons in Hw as [->|Hw]; [by apply Hnot|].
          apply Hnot'. exists w. split; [done|]. split; [done|]. by apply Hk. }
        exists t'. split; [done|]. split; [intros x; rewrite Hk'; apply Hk|].
        intros w c Hw Hc.
        destruct (Htot w c Hw Hc) as (c1 & d & Hc1 & Hd & Hcase).
        destruct (Htot' w c1 Hw Hc1) as (c' & Hc' & Hb).
        exists c'. split; [done|]. rewrite occurrences_cons.
        destruct (decide (iw.2 = w)); lia.
Qed.

Lemma general_process_lines words (lines : list str) t :
  (∀ x, x ∈ words → is_Some (t !! x)) →
  ∃ t', foldl (λ acc (ln : str),
                 match acc with
                 | Raise e => Raise e
                 | Ok count => GeneralCollocateAnalysis.process_line count ln words
                 end) (Ok t) lines = Ok t'
        ∧ ∀ w c, w ∈ words → t !! w = Some c →
            ∃ c', t' !! w = Some c'
                  ∧ 2 * occurrences w (concat (map Py.split lines))
                    ≤ total_count c' - total_count c
                    ≤ 4 * occurrences w (concat (map Py.split lines)).
Proof.
  revert t. induction lines as [|ln lines IH]; intros t Hdom.
  - exists t. split; [done|]. intros w c _ Hc. exists c. split; [done|].
    unfold occurrences. simpl. lia.
  - cbn [foldl map concat].
    unfold GeneralCollocateAnalysis.process_line at 2. cbv zeta.
    destruct (general_visits (Py.split ln) words (enumerate (Py.split ln)) t
                (enumerate_bounds _))
      as [[(w & _ & Hw & Hnone) _]|(_ & t1 & -> & Hk & Htot)].
    { destruct (Hdom w Hw) as [? ?]. congruence. }
    rewrite enumerate_snd in Htot.
    destruct (IH t1) as (t' & -> & Htot').
    { intros x Hx. destruct (t1 !! x) eqn:E; [by eexists|].
      apply Hk in E. destruct (Hdom x Hx) as [? ?]. congruence. }
    exists t'. split; [done|]. intros w c Hw Hc.
    destruct (Htot w c Hw Hc) as (c1 & Hc1 & Hb1).
    destruct (Htot' w c1 Hw Hc1) as (c' & Hc' & Hb').
    exists c'. split; [done|]. rewrite occurrences_app. lia.
Qed.

End GeneralFacts.

(** X17. [GeneralCollocateAnalysis.process_line] raises exactly when a word
    of interest that occurs in the line is not a key of the count table, and
    the exception is then [KeyError]: the windows before the anchor always
    pass the range check, so every occurrence of a word of interest reaches
    the table. *)
Theorem general_process_line_raises_on_missing_word
    (count : gmap str (gmap str Z)) (line : str) (words : list str) (e : exn) :
  GeneralCollocateAnalysis.process_line count line words = Raise e
  ↔ e = KeyError ∧ ∃ w, w ∈ Py.split line ∧ w ∈ words ∧ count !! w = None.
Proof.
  unfold GeneralCollocateAnalysis.process_line. cbv zeta.
  destruct (general_visits (Py.split line) words (enumerate (Py.split line)) count
              (enumerate_bounds _))
    as [[Hex ->]|(Hnot & t' & -> & _)]; rewrite enumerate_snd in *.
  - split; [by intros [= <-]|by intros [-> _]].
  - split; [done|]. intros [_ Hex]. by destruct Hnot.
Qed.

(** X18. [GeneralCollocateAnalysis.process] never raises on a partition,
    and every occurrence of a word of interest adds at least two and at most
    four counts to the row of the word: the two windows before the anchor
    are always counted, also at the start of a line, and the two windows
    after it when the range check lets them through. *)
Theorem general_counts_per_anchor
    (words : list str) (lines : list str) (w : str) :
  w ∈ words →
  ∃ t c, GeneralCollocateAnalysis.process words lines = Ok t
         ∧ t !! w = Some c
         ∧ 2 * occurrences w (concat (map Py.split lines)) ≤ total_count c
           ≤ 4 * occurrences w (concat (map Py.split lines)).
Proof.
  intros Hw. unfold GeneralCollocateAnalysis.process.
  destruct (general_process_lines words lines (empty_counts words))
    as (t & E & Htot).
  { intros x Hx. rewrite lookup_empty_counts, decide_True by done. by eexists. }
  destruct (Htot w ∅ Hw) as (c & Hc & Hb).
  { by rewrite lookup_empty_counts, decide_True. }
  exists t, c. split; [done|]. split; [done|].
  rewrite total_count_empty in Hb. lia.
Qed.

Lemma general_counts_per_anchor_witness :
  ∃ t c, GeneralCollocateAnalysis.process [u "fox"]
           [u "fox runs"; u "a quick fox runs far off"] = Ok t
         ∧ t !! u "fox" = Some c
         ∧ 2 * occurrences (u "fox")
                 (concat (map Py.split [u "fox runs"; u "a quick fox runs far off"]))
           ≤ total_count c
           ≤ 4 * occurrences (u "fox")
                   (concat (map Py.split [u "fox runs"; u "a quick fox runs far off"])).
Proof.
  apply (general_counts_per_anchor [u "fox"]
           [u "fox runs"; u "a quick fox runs far off"] (u "fox")).
  by left.
Defined.
